(** * nestjs-cqrs-schematics: the text-patching core, embedded and verified

    The schematics generate a command (or query) class and its handler and
    patch the sibling [*.module.ts] file.  Everything the generators do is
    string surgery, so the embedding has three layers:

    - [JS]: the JavaScript string primitives the sources call
      ([includes], [startsWith], [endsWith], [trim], [split], [join],
      [String.prototype.replace] with its [$]-substitution) and a
      backtracking matcher for the regular-expression fragment the sources
      use (literals, character classes, greedy and lazy repetition of one
      class, end anchor);
    - the two external collaborators as interfaces: the devkit [strings]
      helpers ([Strings]) and the virtual file tree ([Tree]);
    - the repository's own functions, one definition per source function,
      under the module named after the source file.

    Strings are lists of 8-bit code units (Latin-1), so the whitespace class
    is the Latin-1 part of the ECMAScript one. *)

From Stdlib Require Import List Ascii String Bool Arith Lia.
Import ListNotations.

Definition str := list ascii.
Coercion lit (s : string) : list ascii := list_ascii_of_string s.

Open Scope string_scope.
Open Scope list_scope.

(** ** JavaScript string primitives *)
Module JS.

(** The double quote, written by its bits (code 34). *)
Definition dquote : ascii :=
  Ascii false true false false false true false false.

Definition squote : ascii := "'"%char.

(** The line feed, and the one-character string of it. *)
Definition nl : ascii := "010"%char.
Definition NL : str := [nl].

Definition str_eqb (a b : str) : bool :=
  if list_eq_dec ascii_dec a b then true else false.

(** [s.startsWith(p)], returning what follows the prefix. *)
Fixpoint strip_prefix (p s : str) : option str :=
  match p with
  | [] => Some s
  | c :: p' =>
      match s with
      | [] => None
      | d :: s' => if Ascii.eqb c d then strip_prefix p' s' else None
      end
  end.

Definition startsWith (s p : str) : bool :=
  match strip_prefix p s with Some _ => true | None => false end.

Definition endsWith (s p : str) : bool := startsWith (rev s) (rev p).

(** [s.indexOf(pat)] as a split of [s] around the first occurrence. *)
Fixpoint find_sub (pat s : str) : option (str * str) :=
  match strip_prefix pat s with
  | Some after => Some ([], after)
  | None =>
      match s with
      | [] => None
      | c :: s' =>
          match find_sub pat s' with
          | Some (before, after) => Some (c :: before, after)
          | None => None
          end
      end
  end.

Definition includes (s pat : str) : bool :=
  match find_sub pat s with Some _ => true | None => false end.

(** ECMAScript WhiteSpace and LineTerminator code units below 256:
    TAB, LF, VT, FF, CR, SP and NBSP. *)
Definition is_space (c : ascii) : bool :=
  let n := nat_of_ascii c in
  (((9 <=? n) && (n <=? 13)) || (n =? 32) || (n =? 160))%nat.

Definition is_line_terminator (c : ascii) : bool :=
  let n := nat_of_ascii c in ((n =? 10) || (n =? 13))%nat.

(** The regular-expression classes of the sources. *)
Definition cls_dot (c : ascii) : bool := negb (is_line_terminator c).
Definition cls_any (_ : ascii) : bool := true.
Definition cls_quote (c : ascii) : bool :=
  Ascii.eqb c squote || Ascii.eqb c dquote.
Definition cls_not_quote (c : ascii) : bool := negb (cls_quote c).
Definition cls_word (c : ascii) : bool :=
  let n := nat_of_ascii c in
  (((48 <=? n) && (n <=? 57)) || ((65 <=? n) && (n <=? 90))
   || (n =? 95) || ((97 <=? n) && (n <=? 122)))%nat.

Fixpoint dropWhile (p : ascii -> bool) (s : str) : str :=
  match s with
  | [] => []
  | c :: s' => if p c then dropWhile p s' else s
  end.

Definition trimStart (s : str) : str := dropWhile is_space s.
Definition trimEnd (s : str) : str := rev (dropWhile is_space (rev s)).
Definition trim (s : str) : str := trimEnd (trimStart s).

(** [s.split(sep)] for a one-character separator: the result is never
    empty, the empty string splits into one empty part. *)
Fixpoint split (sep : ascii) (s : str) : list str :=
  match s with
  | [] => [[]]
  | c :: s' =>
      if Ascii.eqb c sep then [] :: split sep s'
      else
        match split sep s' with
        | [] => [[c]]
        | w :: ws => (c :: w) :: ws
        end
  end.

Fixpoint join (sep : str) (parts : list str) : str :=
  match parts with
  | [] => []
  | [p] => p
  | p :: ps => p ++ sep ++ join sep ps
  end.

(** The empty string. *)
Definition empty : str := [].

Definition nonempty (s : str) : bool :=
  match s with [] => false | _ => true end.

(** GetSubstitution for a search without capture groups: in the replacement
    text [$$] is a dollar, [$&] the matched text, [$`] what precedes the
    match and [$'] what follows it; a dollar before anything else (digits
    included, there being no groups) stands for itself. *)
Fixpoint expand (matched before after tpl : str) : str :=
  match tpl with
  | [] => []
  | c :: t =>
      if Ascii.eqb c "$" then
        match t with
        | [] => [c]
        | d :: t' =>
            if Ascii.eqb d "$" then "$"%char :: expand matched before after t'
            else if Ascii.eqb d "&" then matched ++ expand matched before after t'
            else if Ascii.eqb d "`" then before ++ expand matched before after t'
            else if Ascii.eqb d squote then after ++ expand matched before after t'
            else c :: expand matched before after t
        end
      else c :: expand matched before after t
  end.

(** [s.replace(pat, tpl)] with a string pattern: the first occurrence only,
    the replacement text going through [expand]. *)
Definition replace_str (s pat tpl : str) : str :=
  match find_sub pat s with
  | None => s
  | Some (before, after) => before ++ expand pat before after tpl ++ after
  end.

(** *** Regular expressions

    A pattern is a sequence of atoms.  Matching returns the text each atom
    consumed (so a capture group is read off by position) and the rest of
    the input.  Repetition backtracks as in ECMAScript: the greedy form
    tries one more character first, the lazy form tries to stop first. *)
Inductive atom : Type :=
| Lit (l : str)
| Chr (c : ascii -> bool)
| Star (greedy : bool) (c : ascii -> bool)
| Plus (c : ascii -> bool)
| End.

Definition cont := str -> option (list str * str).

Definition seg_cons (seg : str) (r : option (list str * str))
  : option (list str * str) :=
  match r with
  | Some (segs, rest) => Some (seg :: segs, rest)
  | None => None
  end.

Definition seg_push (c : ascii) (r : option (list str * str))
  : option (list str * str) :=
  match r with
  | Some (seg :: segs, rest) => Some ((c :: seg) :: segs, rest)
  | _ => None
  end.

Fixpoint star (greedy : bool) (c : ascii -> bool) (k : cont) (s : str)
  : option (list str * str) :=
  match s with
  | x :: s' =>
      if c x then
        if greedy then
          match seg_push x (star greedy c k s') with
          | Some r => Some r
          | None => seg_cons [] (k s)
          end
        else
          match seg_cons [] (k s) with
          | Some r => Some r
          | None => seg_push x (star greedy c k s')
          end
      else seg_cons [] (k s)
  | [] => seg_cons [] (k s)
  end.

Fixpoint matchAt (r : list atom) : cont :=
  match r with
  | [] => fun s => Some ([], s)
  | a :: r' =>
      match a with
      | Lit l => fun s =>
          match strip_prefix l s with
          | Some s' => seg_cons l (matchAt r' s')
          | None => None
          end
      | Chr c => fun s =>
          match s with
          | x :: s' => if c x then seg_cons [x] (matchAt r' s') else None
          | [] => None
          end
      | Star greedy c => star greedy c (matchAt r')
      | Plus c => fun s =>
          match s with
          | x :: s' =>
              if c x then seg_push x (star true c (matchAt r') s') else None
          | [] => None
          end
      | End => fun s =>
          match s with
          | [] => seg_cons [] (matchAt r' [])
          | _ => None
          end
      end
  end.

(** A successful search: the text before the match, the text of each atom,
    the text after the match. *)
Record found : Type := Found {
  f_before : str;
  f_segs : list str;
  f_after : str
}.

Definition f_match (m : found) : str := List.concat (f_segs m).

Definition shift (c : ascii) (r : option found) : option found :=
  match r with
  | Some m => Some (Found (c :: f_before m) (f_segs m) (f_after m))
  | None => None
  end.

(** [re.exec(s)] without the [g] flag: the leftmost match. *)
Fixpoint search (r : list atom) (s : str) : option found :=
  match matchAt r s with
  | Some (segs, rest) => Some (Found [] segs rest)
  | None =>
      match s with
      | [] => None
      | c :: s' => shift c (search r s')
      end
  end.

Definition test (r : list atom) (s : str) : bool :=
  match search r s with Some _ => true | None => false end.

(** [s.replace(re, fn)] without the [g] flag: what the callback returns is
    inserted as it is. *)
Definition replace_fn (r : list atom) (fn : found -> str) (s : str) : str :=
  match search r s with
  | None => s
  | Some m => f_before m ++ fn m ++ f_after m
  end.

(** The [g] flag: matching resumes where the last match ended, one
    character further after an empty match.  [fuel] bounds the number of
    matches; [S (length s)] is always enough. *)
Fixpoint matches_from (fuel : nat) (r : list atom) (s : str) : list found :=
  match fuel with
  | O => []
  | S fuel' =>
      match search r s with
      | None => []
      | Some m =>
          m :: match f_match m, f_after m with
               | [], [] => []
               | [], _ :: rest => matches_from fuel' r rest
               | _ :: _, rest => matches_from fuel' r rest
               end
      end
  end.

(** [s.match(re)] with the [g] flag, [null] rendered as the empty list. *)
Definition match_all (r : list atom) (s : str) : list str :=
  map f_match (matches_from (S (List.length s)) r s).

(** [s.replace(re, fn)] with the [g] flag. *)
Fixpoint replace_all_from (fuel : nat) (r : list atom) (fn : found -> str)
  (s : str) : str :=
  match fuel with
  | O => s
  | S fuel' =>
      match search r s with
      | None => s
      | Some m =>
          f_before m ++ fn m ++
          match f_match m, f_after m with
          | [], [] => []
          | [], c :: rest => c :: replace_all_from fuel' r fn rest
          | _ :: _, rest => replace_all_from fuel' r fn rest
          end
      end
  end.

Definition replace_all_fn (r : list atom) (fn : found -> str) (s : str) : str :=
  replace_all_from (S (List.length s)) r fn s.

(** [s.replace(re, tpl)] without the [g] flag and for a pattern without
    groups: the replacement text goes through [expand]. *)
Definition replace_re (r : list atom) (tpl : str) (s : str) : str :=
  replace_fn r (fun m => expand (f_match m) (f_before m) (f_after m) tpl) s.

End JS.

(** ** The external collaborators *)

(** The helpers of [@angular-devkit/core]'s [strings] the sources call.  The
    repository does not contain them: general statements hold for any
    implementation, concrete runs use the model [Devkit.strings].  The model
    follows the library on ASCII names: its case mapping moves the letters
    [a] to [z] and [A] to [Z] and no other, where the library's also moves
    the letters beyond code 127.  It is evaluated on ASCII names only. *)
Class Strings : Type := {
  classify : str -> str;
  dasherize : str -> str;
  camelize : str -> str
}.

Module Devkit.

Definition is_upper (c : ascii) : bool :=
  let n := nat_of_ascii c in ((65 <=? n) && (n <=? 90))%nat.
Definition is_lower (c : ascii) : bool :=
  let n := nat_of_ascii c in ((97 <=? n) && (n <=? 122))%nat.
Definition is_digit (c : ascii) : bool :=
  let n := nat_of_ascii c in ((48 <=? n) && (n <=? 57))%nat.

Definition toLowerCase (c : ascii) : ascii :=
  if is_upper c then ascii_of_nat (nat_of_ascii c + 32) else c.
Definition toUpperCase (c : ascii) : ascii :=
  if is_lower c then ascii_of_nat (nat_of_ascii c - 32) else c.

(** [str.replace(/([a-z\d])([A-Z])/g, '$1_$2')]: an underscore between a
    lower-case letter or digit and the capital that follows it. *)
Fixpoint underscore_humps (s : str) : str :=
  match s with
  | [] => []
  | c :: t =>
      match t with
      | d :: _ =>
          if (is_lower c || is_digit c) && is_upper d
          then c :: "_"%char :: underscore_humps t
          else c :: underscore_humps t
      | [] => [c]
      end
  end.

Definition decamelize (s : str) : str := map toLowerCase (underscore_humps s).

(** [decamelize(str).replace(/[ _]/g, '-')]. *)
Definition dasherize (s : str) : str :=
  map (fun c => if Ascii.eqb c " " || Ascii.eqb c "_" then "-"%char else c)
      (decamelize s).

Definition is_separator (c : ascii) : bool :=
  Ascii.eqb c "-" || Ascii.eqb c "_" || Ascii.eqb c "." || JS.is_space c.

(** [str.replace(/(-|_|\.|\s)+(.)?/g, (m, sep, chr) => chr ? chr.toUpperCase() : '')]:
    a run of separators goes away and the character after it is put in
    upper case. *)
Fixpoint camel_humps (up : bool) (s : str) : str :=
  match s with
  | [] => []
  | c :: t =>
      if is_separator c then camel_humps true t
      else (if up then toUpperCase c else c) :: camel_humps false t
  end.

(** ... followed by [.replace(/^([A-Z])/, m => m.toLowerCase())]. *)
Definition camelize (s : str) : str :=
  match camel_humps false s with
  | c :: t => toLowerCase c :: t
  | [] => []
  end.

Definition capitalize (s : str) : str :=
  match s with
  | c :: t => toUpperCase c :: t
  | [] => []
  end.

(** [str.split('.').map(part => capitalize(camelize(part))).join('')]. *)
Definition classify (s : str) : str :=
  List.concat (map (fun part => capitalize (camelize part)) (JS.split "." s)).

Definition strings : Strings := Build_Strings classify dasherize camelize.

End Devkit.

(** What a schematic step returns: a value, or the message of the exception
    it threw. *)
Inductive result (A : Type) : Type :=
| Ok (a : A)
| Throw (msg : str).
Arguments Ok {A} a.
Arguments Throw {A} msg.

(** The devkit's virtual file tree, as far as the sources use it.  The tree
    is mutated in place: [create] and [overwrite] return the tree after the
    call, or the exception. *)
Class Tree (T : Type) : Type := {
  getDir_subfiles : T -> str -> result (list str);
  read : T -> str -> result (option str);
  create : T -> str -> str -> result T;
  overwrite : T -> str -> str -> result T
}.

(** Code that mutates the tree and may throw.  What was written before an
    exception stays written. *)
Definition Eff (T A : Type) : Type := T -> T * result A.

Definition ret {T A} (a : A) : Eff T A := fun t => (t, Ok a).
Definition throw {T A} (msg : str) : Eff T A := fun t => (t, Throw msg).
Definition bind {T A B} (m : Eff T A) (k : A -> Eff T B) : Eff T B :=
  fun t =>
    match m t with
    | (t', Ok a) => k a t'
    | (t', Throw msg) => (t', Throw msg)
    end.
(** [try { m } catch (error) { throw new SchematicsException(wrap(error)) }] *)
Definition rethrow {T A} (wrap : str -> str) (m : Eff T A) : Eff T A :=
  fun t =>
    match m t with
    | (t', Ok a) => (t', Ok a)
    | (t', Throw msg) => (t', Throw (wrap msg))
    end.

Notation "x <- m ;; k" := (bind m (fun x => k))
  (at level 61, m at next level, right associativity).
Notation "m ;; k" := (bind m (fun _ => k))
  (at level 61, right associativity).

(** The text of [`${error}`] for an exception with message [msg]. *)
Definition error_text (msg : str) : str := "Error: " ++ msg.

Section TreeOps.
Context {T : Type} `{Tree T}.

Definition tree_read (path : str) : Eff T (option str) :=
  fun t => (t, read t path).
Definition tree_create (path content : str) : Eff T unit :=
  fun t =>
    match create t path content with
    | Ok t' => (t', Ok tt)
    | Throw msg => (t, Throw msg)
    end.
Definition tree_overwrite (path content : str) : Eff T unit :=
  fun t =>
    match overwrite t path content with
    | Ok t' => (t', Ok tt)
    | Throw msg => (t, Throw msg)
    end.
End TreeOps.

(** ** src/utils/path-utilities.ts *)
Module PathUtilities.
Import JS.

(** [/\/$/] *)
Definition trailing_slash : list atom := [Lit "/"; End].

(** [for (let i = 0; i < levels && pathParts.length > 0; i++) pathParts.pop()] *)
Fixpoint pop_levels (levels : nat) (pathParts : list str) : list str :=
  match levels with
  | O => pathParts
  | S levels' =>
      match pathParts with
      | [] => []
      | _ :: _ => pop_levels levels' (removelast pathParts)
      end
  end.

Definition getParentPath (path : str) (levels : nat) : str :=
  let normalizedPath := replace_re trailing_slash empty path in
  let pathParts := filter nonempty (split "/" normalizedPath) in
  let pathParts := pop_levels levels pathParts in
  match pathParts with
  | [] => empty
  | _ :: _ => join "/" pathParts ++ "/"
  end.

(** The [while] loop of [getRelativePath]: how many leading segments the
    two lists share. *)
Fixpoint commonLength (fromParts toParts : list str) : nat :=
  match fromParts, toParts with
  | x :: fromParts', y :: toParts' =>
      if str_eqb x y then S (commonLength fromParts' toParts') else 0
  | _, _ => 0
  end.

Definition getRelativePath (from to : str) : str :=
  let fromParts :=
    filter nonempty (split "/" (replace_re trailing_slash empty from)) in
  let toParts := filter nonempty (split "/" to) in
  let commonLength := commonLength fromParts toParts in
  let upLevels := List.length fromParts - commonLength in
  let downPath := skipn commonLength toParts in
  let relativeParts := repeat (".." : str) upLevels ++ downPath in
  let result := join "/" relativeParts in
  if startsWith result "../" then result else "./" ++ result.

(** [s.lastIndexOf(c)], [None] for -1. *)
Fixpoint lastIndexOf (c : ascii) (s : str) : option nat :=
  match s with
  | [] => None
  | x :: s' =>
      match lastIndexOf c s' with
      | Some i => Some (S i)
      | None => if Ascii.eqb x c then Some 0 else None
      end
  end.

Definition calculateRelativeImportPath
  (modulePath handlerBasePath name : str) (flat : bool) : str :=
  let moduleDir :=
    firstn (match lastIndexOf "/" modulePath with
            | Some i => i + 1
            | None => 0
            end) modulePath in
  let handlerPath :=
    if flat then handlerBasePath ++ name ++ ".handler"
    else handlerBasePath ++ "handlers/" ++ name ++ ".handler" in
  getRelativePath moduleDir handlerPath.

End PathUtilities.

(** ** src/utils/option-normalizer.ts *)
Module OptionNormalizer.
Import JS.

(** [GenerateOptions]: [name] is required by the type, the other fields may
    be left out. *)
Record GenerateOptions : Type := {
  opt_name : str;
  opt_path : option str;
  opt_skipImport : option bool;
  opt_flat : option bool
}.

Record NormalizedOptions : Type := {
  norm_name : str;
  normalizedPath : str;
  norm_skipImport : bool;
  norm_flat : bool
}.

Definition DEFAULT_PATH : str := "src".
Definition DEFAULT_SKIP_IMPORT : bool := false.
Definition DEFAULT_FLAT : bool := false.

(** [x ? a : b] and [x || d] on an optional field: absent and empty (or
    false) values are falsy. *)
Definition truthy_str (o : option str) : option str :=
  match o with
  | Some (c :: s) => Some (c :: s)
  | _ => None
  end.
Definition or_default (o : option bool) (d : bool) : bool :=
  match o with
  | Some true => true
  | _ => d
  end.

Definition normalizeOptions `{Strings} (options : GenerateOptions)
  : NormalizedOptions :=
  let name := dasherize (opt_name options) in
  let path :=
    match truthy_str (opt_path options) with
    | Some p => "src/" ++ p
    | None => DEFAULT_PATH
    end in
  let normalizedPath := if endsWith path "/" then path else path ++ "/" in
  let skipImport := or_default (opt_skipImport options) DEFAULT_SKIP_IMPORT in
  let flat := or_default (opt_flat options) DEFAULT_FLAT in
  {| norm_name := name;
     normalizedPath := normalizedPath;
     norm_skipImport := skipImport;
     norm_flat := flat |}.

End OptionNormalizer.

(** ** src/utils/template.ts *)
Module Template.
Import JS.

(** [/<%= (\w+)\((\w+)\) %>/g] *)
Definition token : list atom :=
  [Lit "<%= "; Plus cls_word; Lit "("; Plus cls_word; Lit ") %>"].

Definition processTemplate `{Strings} (template name : str) : str :=
  replace_all_fn token
    (fun m =>
       match f_segs m with
       | [_; fn; _; arg; _] =>
           if str_eqb fn "classify" && str_eqb arg "name" then classify name
           else if str_eqb fn "dasherize" && str_eqb arg "name"
           then dasherize name
           else if str_eqb fn "camelize" && str_eqb arg "name"
           then camelize name
           else f_match m
       | _ => f_match m
       end)
    template.

End Template.

(** ** src/utils/content-manipulator.ts *)
Module ContentManipulator.
Import JS.

(** [/import.*from\s+['dq][^'dq]+['dq];/g], [dq] standing for the double
    quote. *)
Definition importRegex : list atom :=
  [Lit "import"; Star true cls_dot; Lit "from"; Plus is_space;
   Chr cls_quote; Plus cls_not_quote; Chr cls_quote; Lit ";"].

Definition addImportStatement (content importStatement : str) : str :=
  let imports := match_all importRegex content in
  match imports with
  | _ :: _ =>
      let lastImport := last imports [] in
      replace_str content lastImport (lastImport ++ NL ++ importStatement)
  | [] => importStatement ++ NL ++ content
  end.

(** [/providers:\s*\[([\s\S]*?)\]/m]; the group is the fourth atom. *)
Definition providersRegex : list atom :=
  [Lit "providers:"; Star true is_space; Lit "["; Star false cls_any; Lit "]"].

Definition group1 (m : found) : str := nth 3 (f_segs m) [].

Definition addProviderEntry `{Strings} (content providerEntry name : str)
  : str :=
  replace_fn providersRegex
    (fun m =>
       let providers := group1 m in
       if includes providers (classify name ++ "Handler") then f_match m
       else
         let existingProviders := trim providers in
         let separator : str :=
           if nonempty existingProviders
              && negb (endsWith existingProviders ",")
           then "," else empty in
         "providers: [" ++ existingProviders ++ separator ++ NL
           ++ providerEntry ++ NL ++ "  ]")
    content.

End ContentManipulator.

(** ** src/utils/module-updater.ts *)
Module ModuleUpdater.
Import JS PathUtilities ContentManipulator OptionNormalizer.

Section WithTree.
Context {T : Type} `{Tree T} `{Strings}.

(** The [console] calls are left out: they do not change what is
    returned.  An exception of [tree.getDir] is caught and gives [null]. *)
Definition findModuleFile (tree : T) (currentPath : str) : option str :=
  let parentPath := getParentPath currentPath 1 in
  match getDir_subfiles tree parentPath with
  | Ok subfiles =>
      let moduleFiles :=
        map (fun file => parentPath ++ file)
            (filter (fun file => endsWith file ".module.ts") subfiles) in
      match moduleFiles with
      | [] => None
      | first :: _ => Some first
      end
  | Throw _ => None
  end.

(** [/providers\s*:\s*\[/] *)
Definition providersTest : list atom :=
  [Lit "providers"; Star true is_space; Lit ":"; Star true is_space; Lit "["].

(** The part of [updateModuleFile] between reading the module file and
    writing it back: [Ok None] is the early return of the guard,
    [Ok (Some c)] the content to write, [Throw] the exception. *)
Definition patchModuleContent
  (modulePath moduleContent name relativeImportPath : str)
  : result (option str) :=
  let importStatement : str :=
    "import { " ++ classify name ++ "Handler } from '"
      ++ relativeImportPath ++ "';" in
  let providerEntry : str := "    " ++ classify name ++ "Handler," in
  if includes moduleContent importStatement
     || includes moduleContent providerEntry
  then Ok None
  else
    let updatedImports := addImportStatement moduleContent importStatement in
    if negb (test providersTest updatedImports)
    then Throw ("No providers array found in " ++ modulePath)
    else
      let updatedProviders :=
        addProviderEntry updatedImports providerEntry name in
      Ok (Some updatedProviders).

Definition updateModuleFile (name normalizedPath : str) (flat : bool)
  : Eff T unit :=
  fun tree =>
    match truthy_str (findModuleFile tree normalizedPath) with
    | None => (tree, Ok tt)
    | Some modulePath =>
        rethrow (fun message => "Failed to update module file: " ++ message)
          (moduleContent <- tree_read modulePath ;;
           match truthy_str moduleContent with
           | None => throw ("Could not read module file: " ++ modulePath)
           | Some moduleContent =>
               let relativeImportPath :=
                 calculateRelativeImportPath
                   modulePath normalizedPath name flat in
               match patchModuleContent modulePath moduleContent name
                       relativeImportPath with
               | Throw message => throw message
               | Ok None => ret tt
               | Ok (Some updatedProviders) =>
                   tree_overwrite modulePath updatedProviders
               end
           end)
          tree
    end.

(** The module file's content after the patch step, the early return
    leaving it as it was. *)
Definition patched (modulePath moduleContent name relativeImportPath : str)
  : result str :=
  match patchModuleContent modulePath moduleContent name
          relativeImportPath with
  | Ok None => Ok moduleContent
  | Ok (Some c) => Ok c
  | Throw message => Throw message
  end.

Definition patched_twice
  (modulePath moduleContent name relativeImportPath : str) : result str :=
  match patched modulePath moduleContent name relativeImportPath with
  | Ok c => patched modulePath c name relativeImportPath
  | Throw message => Throw message
  end.
End WithTree.

End ModuleUpdater.

(** ** src/command/command.ts

    The file carries its own copies of [normalizeOptions], [findModuleFile],
    [getParentPath], [calculateRelativeImportPath], [getRelativePath],
    [addImportStatement] and [addProviderEntry]; they are the same text as
    the ones under [src/utils] and are shared here.  Its [updateModuleFile]
    is its own. *)
Module Command.
Import JS PathUtilities ContentManipulator OptionNormalizer Template.

Definition TEMPLATES_COMMAND : str := "

  import { Command } from '@nestjs/cqrs';

export interface <%= classify(name) %>CommandPayload {
  name: string;
  description?: string;
}

export class <%= classify(name) %>Command extends Command<any> {
  constructor(public readonly payload: <%= classify(name) %>CommandPayload) {
    super();
  }
}
".

Definition TEMPLATES_HANDLER : str := "
import { CommandHandler, ICommandHandler } from '@nestjs/cqrs';
import { <%= classify(name) %>Command } from '<%= importPath %>';

@CommandHandler(<%= classify(name) %>Command)
export class <%= classify(name) %>Handler implements ICommandHandler<<%= classify(name) %>Command> {
  constructor() {}

  async execute(command: <%= classify(name) %>Command): Promise<any> {
    const { payload } = command;
    return { success: true };
  }
}
".

Section WithTree.
Context {T : Type} `{Tree T} `{Strings}.

Definition createCommandFiles
  (name normalizedPath : str) (flat : bool)
  (commandContent handlerContent : str) : Eff T unit :=
  let commandPath := if flat then normalizedPath else normalizedPath ++ "impl/" in
  let handlerPath :=
    if flat then normalizedPath else normalizedPath ++ "handlers/" in
  let commandFilePath := commandPath ++ name ++ ".command.ts" in
  tree_create commandFilePath commandContent ;;
  let handlerFilePath := handlerPath ++ name ++ ".handler.ts" in
  tree_create handlerFilePath handlerContent.

Definition findModuleFile : T -> str -> option str :=
  ModuleUpdater.findModuleFile.

(** As in [ModuleUpdater], the transformation of the content on its own. *)
Definition patchModuleContent
  (moduleContent name relativeImportPath : str) : option str :=
  let importStatement : str :=
    "import { " ++ classify name ++ "Handler } from '"
      ++ relativeImportPath ++ "';" in
  let providerEntry : str := "    " ++ classify name ++ "Handler," in
  if includes moduleContent importStatement
     || includes moduleContent (classify name ++ "Handler")
  then None
  else
    let updatedImports := addImportStatement moduleContent importStatement in
    let updatedProviders :=
      addProviderEntry updatedImports providerEntry name in
    Some updatedProviders.

Definition updateModuleFile (name normalizedPath : str) (flat : bool)
  : Eff T unit :=
  fun tree =>
    match truthy_str (findModuleFile tree normalizedPath) with
    | None => (tree, Ok tt)
    | Some modulePath =>
        rethrow
          (fun message =>
             "Failed to update module file: " ++ error_text message)
          (moduleContent <- tree_read modulePath ;;
           match truthy_str moduleContent with
           | None => throw ("Could not read module file: " ++ modulePath)
           | Some moduleContent =>
               let relativeImportPath :=
                 calculateRelativeImportPath
                   modulePath normalizedPath name flat in
               match patchModuleContent moduleContent name
                       relativeImportPath with
               | None => ret tt
               | Some updatedProviders =>
                   tree_overwrite modulePath updatedProviders
               end
           end)
          tree
    end.

Definition command (_options : GenerateOptions) : Eff T unit :=
  rethrow (fun message => "Failed to generate command: " ++ error_text message)
    (if negb (nonempty (opt_name _options))
     then throw "Command name is required"
     else
       let options := normalizeOptions _options in
       let name := norm_name options in
       let normalizedPath := normalizedPath options in
       let skipImport := norm_skipImport options in
       let flat := norm_flat options in
       let commandContent := processTemplate TEMPLATES_COMMAND name in
       let importPath : str :=
         if flat then "./" ++ name ++ ".command"
         else "../impl/" ++ name ++ ".command" in
       let handlerTemplate :=
         replace_str TEMPLATES_HANDLER "<%= importPath %>" importPath in
       let handlerContent := processTemplate handlerTemplate name in
       createCommandFiles name normalizedPath flat
         commandContent handlerContent ;;
       if negb skipImport
       then updateModuleFile name normalizedPath flat
       else ret tt).
End WithTree.

End Command.

(** ** src/utils/helpers/index.ts

    The helpers the query generator imports.  Its [updateModuleFile], with
    everything it calls, is the text of the one in [command.ts]. *)
Module Helpers.

Definition updateModuleFile {T : Type} `{Tree T} `{Strings}
  : str -> str -> bool -> Eff T unit :=
  Command.updateModuleFile.

End Helpers.

(** ** The compiled command schematic of an earlier revision
    (src/unnamed/part_002)

    Its [addProviderEntry] differs from the current one in the pattern (one
    space after the colon) and in the separator. *)
Module CommandJs.
Import JS.

(** [/providers: \[([\s\S]*?)\]/]; the group is the second atom. *)
Definition providersRegex : list atom :=
  [Lit "providers: ["; Star false cls_any; Lit "]"].

Definition addProviderEntry `{Strings} (content providerEntry name : str)
  : str :=
  replace_fn providersRegex
    (fun m =>
       let providers := nth 1 (f_segs m) [] in
       if includes providers (classify name ++ "Handler") then f_match m
       else
         let existingProviders := trim providers in
         let separator : str := if nonempty existingProviders then "," else empty in
         "providers: [" ++ existingProviders ++ separator ++ NL
           ++ providerEntry ++ NL ++ "  ]")
    content.

End CommandJs.

(** ** An in-memory file tree

    A model of the devkit tree for concrete runs: the files in listing
    order, keyed by the text of their path; a directory is named by the
    text before its entries (the empty text for the root).  Paths are
    compared as they are written, where the devkit tree first brings a path
    to its normal form: the model stands for the devkit tree on paths that
    are in that form already (segments separated by one slash each, none of
    them [.] or [..], no slash in front), and it is run on such paths only.
    What holds of every tree is stated for the interface [Tree]. *)
Module MemTree.
Import JS.

Definition t : Type := list (str * str).

Definition exists_ (tree : t) (path : str) : bool :=
  existsb (fun f => str_eqb (fst f) path) tree.

Definition lookup (tree : t) (path : str) : option str :=
  match find (fun f => str_eqb (fst f) path) tree with
  | Some f => Some (snd f)
  | None => None
  end.

Definition entry_in (dir : str) (f : str * str) : option str :=
  match strip_prefix dir (fst f) with
  | Some file => if includes file "/" then None else Some file
  | None => None
  end.

Fixpoint subfiles (tree : t) (dir : str) : list str :=
  match tree with
  | [] => []
  | f :: tree' =>
      match entry_in dir f with
      | Some file => file :: subfiles tree' dir
      | None => subfiles tree' dir
      end
  end.

(** The devkit names a path in its messages with the slash of the root in
    front. *)
Definition quoted (path : str) : str := dquote :: "/" ++ path ++ [dquote].

Definition create (tree : t) (path content : str) : result t :=
  if exists_ tree path
  then Throw ("Path " ++ quoted path ++ " already exist.")
  else Ok (tree ++ [(path, content)]).

Definition overwrite (tree : t) (path content : str) : result t :=
  if exists_ tree path
  then Ok (map (fun f => if str_eqb (fst f) path then (path, content) else f)
               tree)
  else Throw ("Path " ++ quoted path ++ " does not exist.").

Definition tree : Tree t :=
  Build_Tree t
    (fun tr dir => Ok (subfiles tr dir))
    (fun tr path => Ok (lookup tr path))
    create
    overwrite.

End MemTree.

(** ** The words of the specification

    Notions the specification speaks of and the code does not compute: the
    lines of a text, one list of lines being kept in order inside another,
    and a relative path resolved against a directory. *)
Module SpecWords.
Import JS.

Definition lines (s : str) : list str := split nl s.

(** [kept_in_order a b]: the elements of [a] all occur in [b], in the order
    they have in [a]. *)
Fixpoint kept_in_order (a b : list str) {struct b} : bool :=
  match a, b with
  | [], _ => true
  | _ :: _, [] => false
  | x :: a', y :: b' =>
      if str_eqb x y then kept_in_order a' b' else kept_in_order a b'
  end.

Definition segments (p : str) : list str := filter nonempty (split "/" p).

(** Standard path resolution on segments: [.] stays where it is, [..]
    leaves the last directory entered, or is kept when there is none.
    [entered] lists the directories entered, the last one first. *)
Definition step (entered : list str) (x : str) : list str :=
  if str_eqb x "." then entered
  else if str_eqb x ".." then
    match entered with
    | y :: entered' => if str_eqb y ".." then x :: entered else entered'
    | [] => [x]
    end
  else x :: entered.

Definition walk (entered segs : list str) : list str :=
  rev (fold_left step segs entered).

Definition normalize (p : str) : list str := walk [] (segments p).

Definition resolve (dir rel : str) : list str :=
  walk [] (segments dir ++ segments rel).

(** A segment that names a directory or a file, not [.] or [..]. *)
Definition plain (x : str) : bool :=
  negb (str_eqb x ".") && negb (str_eqb x "..").

(** [common] is the longest common prefix of [a] and [b], [a'] and [b']
    what each has beyond it. *)
Definition diverge_after (a b common a' b' : list str) : Prop :=
  a = common ++ a' /\ b = common ++ b' /\
  match a', b' with
  | x :: _, y :: _ => x <> y
  | _, _ => True
  end.

(** A text without the separator [sep]; a segment of a path is not empty
    and has no slash, a line has no line feed. *)
Definition sep_free (sep : ascii) (w : str) : Prop :=
  forallb (fun c => negb (Ascii.eqb c sep)) w = true.
Definition slash_free (w : str) : Prop := sep_free "/" w.
Definition segment (w : str) : Prop := w <> [] /\ slash_free w.

(** One [..] for each segment of [fromRest], then [toRest], joined. *)
Definition climb (fromRest toRest : list str) : str :=
  join "/" (repeat (".." : str) (List.length fromRest) ++ toRest).

(** The text of a directory given by its segments, as [getParentPath]
    writes it: a slash behind every segment. *)
Definition directory_text (parts : list str) : str :=
  match parts with
  | [] => []
  | _ :: _ => join "/" parts ++ "/"
  end.

Definition has_dollar (s : str) : bool := existsb (Ascii.eqb "$") s.

(** The array literal the registration insertion looks for: the marker
    [providers:], white space, the opening bracket, an inner text, the
    closing bracket. *)
Definition array_literal (blanks providers : str) : str :=
  "providers:" ++ blanks ++ "[" ++ providers ++ "]".

(** [rest] starts with an array literal, its inner text going up to the
    first closing bracket. *)
Definition starts_array (rest : str) : Prop :=
  exists blanks providers after,
    rest = array_literal blanks providers ++ after /\
    forallb is_space blanks = true /\
    sep_free "]" providers.

(** The first array literal of [content]: it stands behind [before] and in
    front of [after], and no array literal starts further to the left. *)
Definition first_array (content before blanks providers after : str) : Prop :=
  content = before ++ array_literal blanks providers ++ after /\
  forallb is_space blanks = true /\
  sep_free "]" providers /\
  forall b rest,
    content = b ++ rest -> List.length b < List.length before ->
    ~ starts_array rest.

(** No array literal starts anywhere in [content]. *)
Definition no_array (content : str) : Prop :=
  forall b rest, content = b ++ rest -> ~ starts_array rest.

(** The files of [after] are those of [before] and the two paths. *)
Definition creates_exactly (before after : MemTree.t) (p1 p2 : str) : Prop :=
  forall q : str,
    MemTree.exists_ after q
    = MemTree.exists_ before q || str_eqb p1 q || str_eqb p2 q.

End SpecWords.

(** ** Module files used as concrete inputs *)
Module Samples.
Import JS.

(** A module file in the usual layout, one provider registered. *)
Definition users_module : str :=
  "import { Module } from '@nestjs/common';" ++ NL
  ++ "import { GetUserHandler } from './queries/handlers/get-user.handler';" ++ NL
  ++ NL
  ++ "@Module({" ++ NL
  ++ "  providers: [" ++ NL
  ++ "    GetUserHandler," ++ NL
  ++ "  ]," ++ NL
  ++ "})" ++ NL
  ++ "export class UsersModule {}" ++ NL.

(** A module file without a providers array. *)
Definition bare_module : str :=
  "import { Module } from '@nestjs/common';" ++ NL
  ++ NL
  ++ "@Module({})" ++ NL
  ++ "export class AppModule {}" ++ NL.

(** A module file that names the handler in a comment only. *)
Definition commented_module : str :=
  "import { Module } from '@nestjs/common';" ++ NL
  ++ "// TODO: write CreateUserHandler" ++ NL
  ++ "@Module({ providers: [] })" ++ NL
  ++ "export class AppModule {}" ++ NL.

(** A module file whose last import is also quoted in a comment above the
    imports. *)
Definition documented_module : str :=
  "// Usage: import { B } from './b';" ++ NL
  ++ "import { A } from './a';" ++ NL
  ++ "import { B } from './b';" ++ NL
  ++ NL
  ++ "@Module({ providers: [A, B] })" ++ NL
  ++ "export class AppModule {}" ++ NL.

(** A module file that registers the handler on one line and imports it
    from a barrel file. *)
Definition barrel_module : str :=
  "import { Module } from '@nestjs/common';" ++ NL
  ++ "import { FooHandler } from './handlers';" ++ NL
  ++ NL
  ++ "@Module({ providers: [FooHandler] })" ++ NL
  ++ "export class AppModule {}" ++ NL.

(** The statement the generators add for the handler of [create-user]. *)
Definition create_user_import : str :=
  "import { CreateUserHandler } from './handlers/create-user.handler';".

(** The options of the end-to-end scenario: the identifier [create user],
    everything else left out but, in the second scenario, [flat]. *)
Definition create_user_options (flat : option bool)
  : OptionNormalizer.GenerateOptions :=
  {| OptionNormalizer.opt_name := "create user";
     OptionNormalizer.opt_path := None;
     OptionNormalizer.opt_skipImport := None;
     OptionNormalizer.opt_flat := flat |}.

(** A tree that holds the module file of the directory [src/users], and
    options that put the command for [create user] below that directory. *)
Definition users_tree : MemTree.t :=
  [("src/users/users.module.ts" : str, users_module)].

Definition create_user_in_users : OptionNormalizer.GenerateOptions :=
  {| OptionNormalizer.opt_name := "create user";
     OptionNormalizer.opt_path := Some ("users/commands" : str);
     OptionNormalizer.opt_skipImport := None;
     OptionNormalizer.opt_flat := None |}.

End Samples.

(** ** The end-to-end scenario of the command generator

    What the specification says of a run for [create user] on a tree: the
    two files are the only new ones, the handler file imports the command
    class from [importPath], and, no module file being found, the run ends
    normally. *)
Module Scenario.
Import JS.

Definition run (flat : option bool) (tree : MemTree.t)
  : MemTree.t * result unit :=
  @Command.command MemTree.t MemTree.tree Devkit.strings
    (Samples.create_user_options flat) tree.

Definition holds (flat : option bool)
  (commandFile handlerFile importPath : str) (tree : MemTree.t) : Prop :=
  SpecWords.creates_exactly tree (fst (run flat tree)) commandFile handlerFile
  /\
  (exists content,
     MemTree.lookup (fst (run flat tree)) commandFile = Some content /\
     includes content "export class CreateUserCommand " = true) /\
  (exists content,
     MemTree.lookup (fst (run flat tree)) handlerFile = Some content /\
     includes content
       ("import { CreateUserCommand } from '" ++ importPath ++ "';") = true)
  /\
  (@ModuleUpdater.findModuleFile MemTree.t MemTree.tree tree "src/" = None ->
   snd (run flat tree) = Ok tt).

End Scenario.

(** ** src/query/query.ts, with the templates of its
    [templates/query.template] (src/unnamed/part_004)

    [normalizeOptions] and [updateModuleFile] come from
    [src/utils/helpers/index.ts]; its [normalizeOptions] is the text of the
    one in [option-normalizer.ts], the defaults it imports being taken as
    the ones written there. *)
Module Query.
Import JS OptionNormalizer Template.

Definition TEMPLATES_QUERY : str := "

  import { Query } from '@nestjs/cqrs';

export interface <%= classify(name) %>QueryPayload {
  id: string;
}

export class <%= classify(name) %>Query extends Query<any> {
  constructor(public readonly payload: <%= classify(name) %>QueryPayload) {
    super();
  }
}
".

Definition TEMPLATES_HANDLER : str := "
import { QueryHandler, IQueryHandler } from '@nestjs/cqrs';
import { <%= classify(name) %>Query } from '<%= importPath %>';

@QueryHandler(<%= classify(name) %>Query)
export class <%= classify(name) %>Handler implements IQueryHandler<<%= classify(name) %>Query, any> {
  constructor() {}

  async execute(query: <%= classify(name) %>Query): Promise<any> {
    const { payload } = query;
    return { result: null };
  }
}
".

Section WithTree.
Context {T : Type} `{Tree T} `{Strings}.

Definition createQueryFiles
  (name normalizedPath : str) (flat : bool)
  (queryContent handlerContent : str) : Eff T unit :=
  let queryPath := if flat then normalizedPath else normalizedPath ++ "impl/" in
  let handlerPath :=
    if flat then normalizedPath else normalizedPath ++ "handlers/" in
  let queryFilePath := queryPath ++ name ++ ".query.ts" in
  tree_create queryFilePath queryContent ;;
  let handlerFilePath := handlerPath ++ name ++ ".handler.ts" in
  tree_create handlerFilePath handlerContent.

Definition query (_options : GenerateOptions) : Eff T unit :=
  rethrow (fun message => "Failed to generate query: " ++ error_text message)
    (if negb (nonempty (opt_name _options))
     then throw "Query name is required"
     else
       let options := normalizeOptions _options in
       let name := norm_name options in
       let normalizedPath := normalizedPath options in
       let skipImport := norm_skipImport options in
       let flat := norm_flat options in
       let queryContent := processTemplate TEMPLATES_QUERY name in
       let importPath : str :=
         if flat then "./" ++ name ++ ".query"
         else "../impl/" ++ name ++ ".query" in
       let handlerTemplate :=
         replace_str TEMPLATES_HANDLER "<%= importPath %>" importPath in
       let handlerContent := processTemplate handlerTemplate name in
       createQueryFiles name normalizedPath flat
         queryContent handlerContent ;;
       if negb skipImport
       then Helpers.updateModuleFile name normalizedPath flat
       else ret tt).
End WithTree.

End Query.

(** What each atom of a pattern can have consumed. *)
Definition atom_ok (a : JS.atom) (seg : str) : Prop :=
  match a with
  | JS.Lit l => seg = l
  | JS.Chr c => exists x, seg = [x] /\ c x = true
  | JS.Star _ c => forallb c seg = true
  | JS.Plus c => seg <> [] /\ forallb c seg = true
  | JS.End => seg = []
  end.

(** * Facts about the string primitives *)
Module JSFacts.
Import JS.

Lemma str_eqb_eq (a b : str) : str_eqb a b = true <-> a = b.
Proof.
  unfold str_eqb. destruct (list_eq_dec ascii_dec a b); split; congruence.
Qed.

Lemma str_eqb_refl (a : str) : str_eqb a a = true.
Proof. now apply str_eqb_eq. Qed.

Lemma str_eqb_neq (a b : str) : str_eqb a b = false <-> a <> b.
Proof.
  unfold str_eqb. destruct (list_eq_dec ascii_dec a b); split; congruence.
Qed.

Lemma strip_prefix_app (p s : str) : strip_prefix p (p ++ s) = Some s.
Proof.
  induction p as [|c p IH]; simpl; [reflexivity|].
  now rewrite Ascii.eqb_refl.
Qed.

Lemma strip_prefix_Some (p s r : str) :
  strip_prefix p s = Some r -> s = p ++ r.
Proof.
  revert s. induction p as [|c p IH]; intros s; simpl.
  - now intros [= ->].
  - destruct s as [|d s]; [discriminate|].
    destruct (Ascii.eqb c d) eqn:E; [|discriminate].
    apply Ascii.eqb_eq in E. subst d. intros Hs. now rewrite (IH _ Hs).
Qed.

Lemma startsWith_app (p s : str) : startsWith (p ++ s) p = true.
Proof. unfold startsWith. now rewrite strip_prefix_app. Qed.

Lemma startsWith_true (s p : str) :
  startsWith s p = true -> exists r, s = p ++ r.
Proof.
  unfold startsWith. destruct (strip_prefix p s) eqn:E; [|discriminate].
  intros _. exists s0. now apply strip_prefix_Some.
Qed.

Lemma endsWith_app (s p : str) : endsWith (s ++ p) p = true.
Proof. unfold endsWith. rewrite rev_app_distr. apply startsWith_app. Qed.

Lemma endsWith_true (s p : str) :
  endsWith s p = true -> exists r, s = r ++ p.
Proof.
  unfold endsWith. intros Hs. apply startsWith_true in Hs as [r Hr].
  exists (rev r). rewrite <- (rev_involutive s), Hr, rev_app_distr.
  now rewrite rev_involutive.
Qed.

Lemma find_sub_Some (pat s before after : str) :
  find_sub pat s = Some (before, after) -> s = before ++ pat ++ after.
Proof.
  revert before. induction s as [|c s IH]; intros before; simpl.
  - destruct (strip_prefix pat []) eqn:E; [|discriminate].
    intros [= <- <-]. now apply strip_prefix_Some in E.
  - destruct (strip_prefix pat (c :: s)) eqn:E.
    + intros [= <- <-]. now apply strip_prefix_Some in E.
    + destruct (find_sub pat s) as [[b a]|]; [|discriminate].
      intros [= <- <-]. simpl. f_equal. now apply IH.
Qed.

Lemma find_sub_app (pat b a : str) :
  exists b' a', find_sub pat (b ++ pat ++ a) = Some (b', a').
Proof.
  induction b as [|c b IH]; simpl.
  - destruct pat as [|d pat]; simpl.
    + destruct a; simpl; eauto.
    + rewrite Ascii.eqb_refl, strip_prefix_app. eauto.
  - destruct (strip_prefix pat (c :: b ++ pat ++ a)); [eauto|].
    destruct IH as (b' & a' & ->). eauto.
Qed.

Lemma includes_app (pat b a : str) : includes (b ++ pat ++ a) pat = true.
Proof.
  unfold includes. now destruct (find_sub_app pat b a) as (b' & a' & ->).
Qed.

Lemma includes_true (s pat : str) :
  includes s pat = true -> exists b a, s = b ++ pat ++ a.
Proof.
  unfold includes. destruct (find_sub pat s) as [[b a]|] eqn:E; [|discriminate].
  intros _. exists b, a. now apply find_sub_Some.
Qed.

Lemma includes_inside (x s y pat : str) :
  includes s pat = true -> includes (x ++ s ++ y) pat = true.
Proof.
  intros Hs. apply includes_true in Hs as (b & a & ->).
  replace (x ++ (b ++ pat ++ a) ++ y) with ((x ++ b) ++ pat ++ (a ++ y))
    by now rewrite !app_assoc.
  apply includes_app.
Qed.

(** *** Splitting at a separator *)

Lemma split_not_nil (sep : ascii) (s : str) : split sep s <> [].
Proof.
  destruct s as [|c s]; simpl; [discriminate|].
  destruct (Ascii.eqb c sep); [discriminate|].
  destruct (split sep s); discriminate.
Qed.

Lemma split_app_sep (sep : ascii) (a b : str) :
  split sep (a ++ sep :: b) = split sep a ++ split sep b.
Proof.
  induction a as [|c a IH]; simpl.
  - now rewrite Ascii.eqb_refl.
  - destruct (Ascii.eqb c sep); [now rewrite IH|].
    rewrite IH. pose proof (split_not_nil sep a) as Hn.
    destruct (split sep a); [contradiction|reflexivity].
Qed.

Lemma split_sep_free (sep : ascii) (w : str) :
  SpecWords.sep_free sep w -> split sep w = [w].
Proof.
  unfold SpecWords.sep_free. induction w as [|c w IH]; simpl; [reflexivity|].
  destruct (Ascii.eqb c sep); simpl; [discriminate|].
  intros Hw. now rewrite (IH Hw).
Qed.

Lemma split_parts_sep_free (sep : ascii) (s : str) :
  Forall (SpecWords.sep_free sep) (split sep s).
Proof.
  induction s as [|c s IH]; simpl.
  - constructor; [reflexivity|constructor].
  - destruct (Ascii.eqb c sep) eqn:E.
    + constructor; [reflexivity|exact IH].
    + destruct (split sep s) as [|w ws]; inversion IH; subst.
      * constructor; [|constructor]. unfold SpecWords.sep_free. simpl.
        now rewrite E.
      * constructor; [|assumption]. unfold SpecWords.sep_free in *. simpl.
        now rewrite E.
Qed.

(** *** The matcher returns what it consumed *)

Lemma star_sound greedy c (k : cont) (s : str) segs rest :
  star greedy c k s = Some (segs, rest) ->
  exists seg segs' s',
    segs = seg :: segs' /\ forallb c seg = true /\
    s = seg ++ s' /\ k s' = Some (segs', rest).
Proof.
  revert segs rest. induction s as [|x s IH]; intros segs rest; simpl.
  - destruct (k []) as [[sg rs]|] eqn:E; simpl; [|discriminate].
    intros [= <- <-]. exists [], sg, []. auto.
  - assert (Hstop : seg_cons [] (k (x :: s)) = Some (segs, rest) ->
                    exists seg segs' s',
                      segs = seg :: segs' /\ forallb c seg = true /\
                      x :: s = seg ++ s' /\ k s' = Some (segs', rest)).
    { destruct (k (x :: s)) as [[sg rs]|] eqn:E; simpl; [|discriminate].
      intros [= <- <-]. exists [], sg, (x :: s). auto. }
    assert (Hmore : c x = true ->
                    seg_push x (star greedy c k s) = Some (segs, rest) ->
                    exists seg segs' s',
                      segs = seg :: segs' /\ forallb c seg = true /\
                      x :: s = seg ++ s' /\ k s' = Some (segs', rest)).
    { intros Hc. destruct (star greedy c k s) as [[sg rs]|] eqn:E;
        simpl; [|discriminate].
      destruct sg as [|seg sg]; [discriminate|]. intros [= <- <-].
      destruct (IH _ _ eq_refl) as (seg0 & segs' & s' & [= -> ->] & Hall & -> & Hk).
      exists (x :: seg0), segs', s'. simpl. rewrite Hc, Hall. auto. }
    destruct (c x) eqn:Hc; [|exact Hstop].
    destruct greedy.
    + destruct (seg_push x (star true c k s)) as [r|] eqn:E.
      * intros [= ->]. now apply Hmore.
      * exact Hstop.
    + destruct (seg_cons [] (k (x :: s))) as [r|] eqn:E.
      * intros [= ->]. now apply Hstop.
      * now apply Hmore.
Qed.

Lemma matchAt_sound (r : list atom) (s : str) segs rest :
  matchAt r s = Some (segs, rest) ->
  s = List.concat segs ++ rest /\ Forall2 atom_ok r segs.
Proof.
  revert s segs rest. induction r as [|a r IH]; intros s segs rest; simpl.
  - intros [= <- <-]. split; [reflexivity|constructor].
  - destruct a as [l|c|greedy c|c|].
    + destruct (strip_prefix l s) as [s'|] eqn:E; [|discriminate].
      apply strip_prefix_Some in E. subst s.
      destruct (matchAt r s') as [[sg rs]|] eqn:E'; simpl; [|discriminate].
      intros [= <- <-]. destruct (IH _ _ _ E') as [-> HF].
      split; [now rewrite app_assoc|]. constructor; [reflexivity|exact HF].
    + destruct s as [|x s]; [discriminate|].
      destruct (c x) eqn:Hc; [|discriminate].
      destruct (matchAt r s) as [[sg rs]|] eqn:E'; simpl; [|discriminate].
      intros [= <- <-]. destruct (IH _ _ _ E') as [-> HF].
      split; [reflexivity|]. constructor; [|exact HF]. simpl. eauto.
    + intros Hs. apply star_sound in Hs
        as (seg & segs' & s' & -> & Hall & -> & Hk).
      destruct (IH _ _ _ Hk) as [-> HF].
      split; [simpl; now rewrite app_assoc|]. now constructor.
    + destruct s as [|x s]; [discriminate|].
      destruct (c x) eqn:Hc; [|discriminate].
      destruct (star true c (matchAt r) s) as [[sg rs]|] eqn:E';
        simpl; [|discriminate].
      destruct sg as [|seg sg]; [discriminate|]. intros [= <- <-].
      apply star_sound in E' as (seg0 & segs' & s' & [= -> ->] & Hall & -> & Hk).
      destruct (IH _ _ _ Hk) as [-> HF].
      split; [simpl; now rewrite app_assoc|].
      constructor; [|exact HF]. simpl. rewrite Hc, Hall. split; [discriminate|reflexivity].
    + destruct s as [|x s]; [|discriminate].
      destruct (matchAt r []) as [[sg rs]|] eqn:E'; simpl; [|discriminate].
      intros [= <- <-]. destruct (IH _ _ _ E') as [Hs HF].
      split; [exact Hs|]. now constructor.
Qed.

Lemma search_sound (r : list atom) (s : str) (m : found) :
  search r s = Some m ->
  s = f_before m ++ f_match m ++ f_after m /\ Forall2 atom_ok r (f_segs m).
Proof.
  revert m. induction s as [|c s IH]; intros m; simpl.
  - destruct (matchAt r []) as [[sg rs]|] eqn:E; [|discriminate].
    intros [= <-]. now apply matchAt_sound in E.
  - destruct (matchAt r (c :: s)) as [[sg rs]|] eqn:E.
    + intros [= <-]. now apply matchAt_sound in E.
    + destruct (search r s) as [m'|]; simpl; [|discriminate].
      intros [= <-]. destruct (IH _ eq_refl) as [Hs HF].
      split; [simpl; now f_equal|exact HF].
Qed.

Lemma search_length (r : list atom) (s : str) (m : found) :
  search r s = Some m ->
  List.length s =
  List.length (f_before m) + List.length (f_match m) + List.length (f_after m).
Proof.
  intros Hs. apply search_sound in Hs as [Hs _].
  rewrite Hs at 1. rewrite !length_app. lia.
Qed.

(** *** The fuel of the global forms is enough *)

Lemma matches_from_fuel (r : list atom) (fuel fuel' : nat) (s : str) :
  List.length s < fuel -> List.length s < fuel' ->
  matches_from fuel r s = matches_from fuel' r s.
Proof.
  revert fuel' s. induction fuel as [|fuel IH]; intros fuel' s Hf Hf'; [lia|].
  destruct fuel' as [|fuel']; [lia|]. simpl.
  destruct (search r s) as [m|] eqn:E; [|reflexivity].
  apply search_length in E. f_equal.
  destruct (f_match m) as [|x mt] eqn:Em; destruct (f_after m) as [|y rest] eqn:Ea;
    simpl in E; try reflexivity; apply IH; simpl; lia.
Qed.

Lemma replace_all_from_fuel (r : list atom) fn (fuel fuel' : nat) (s : str) :
  List.length s < fuel -> List.length s < fuel' ->
  replace_all_from fuel r fn s = replace_all_from fuel' r fn s.
Proof.
  revert fuel' s. induction fuel as [|fuel IH]; intros fuel' s Hf Hf'; [lia|].
  destruct fuel' as [|fuel']; [lia|]. simpl.
  destruct (search r s) as [m|] eqn:E; [|reflexivity].
  apply search_length in E. do 2 f_equal.
  destruct (f_match m) as [|x mt] eqn:Em; destruct (f_after m) as [|y rest] eqn:Ea;
    simpl in E; try reflexivity.
  - f_equal. apply IH; simpl; lia.
  - apply IH; simpl; lia.
  - apply IH; simpl; lia.
Qed.

Lemma matches_from_inside (r : list atom) (fuel : nat) (s : str) (m : found) :
  In m (matches_from fuel r s) ->
  exists b a, s = b ++ f_match m ++ a.
Proof.
  revert s. induction fuel as [|fuel IH]; intros s; simpl; [tauto|].
  destruct (search r s) as [m0|] eqn:E; [|simpl; tauto].
  apply search_sound in E as [E _]. intros [<-|Hin]; [eauto|].
  destruct (f_match m0) as [|x mt] eqn:Em; destruct (f_after m0) as [|y rest] eqn:Ea;
    try (now destruct Hin);
    apply IH in Hin as (b & a & Hr).
  - exists (f_before m0 ++ y :: b), a. rewrite E, Hr. simpl.
    now rewrite <- app_assoc.
  - exists (f_before m0 ++ (x :: mt) ++ b), a. rewrite E, Hr.
    now rewrite <- !app_assoc.
  - exists (f_before m0 ++ (x :: mt) ++ b), a. rewrite E, Hr.
    now rewrite <- !app_assoc.
Qed.

(** A greedy repetition takes the whole run of the class when what follows
    the run matches the rest of the pattern. *)
Lemma star_takes_the_run (c : ascii -> bool) (k : cont)
  (w rest : str) (segs : list str) (after : str) :
  forallb c w = true ->
  match rest with x :: _ => c x = false | [] => True end ->
  k rest = Some (segs, after) ->
  star true c k (w ++ rest) = Some (w :: segs, after).
Proof.
  intros Hw Hrest Hk. induction w as [|x w IH].
  - destruct rest as [|y rest]; cbn [app star]; [now rewrite Hk|].
    now rewrite Hrest, Hk.
  - cbn [forallb] in Hw. apply andb_prop in Hw as [Hx Hw].
    cbn [app star]. now rewrite Hx, (IH Hw).
Qed.

(** A lazy repetition of any character in front of a one-character literal
    stops at the first occurrence of that character. *)
Lemma lazy_up_to (l : ascii) (w rest : str) :
  SpecWords.sep_free l w ->
  star false cls_any (matchAt [Lit [l]]) (w ++ l :: rest)
  = Some ([w; [l]], rest).
Proof.
  unfold SpecWords.sep_free. intros Hw.
  assert (Hstop : matchAt [Lit [l]] (l :: rest) = Some ([[l]], rest)).
  { cbn [matchAt strip_prefix]. now rewrite Ascii.eqb_refl. }
  assert (Hgo : forall x t, Ascii.eqb l x = false ->
                            matchAt [Lit [l]] (x :: t) = None).
  { intros x t Hx. cbn [matchAt strip_prefix]. now rewrite Hx. }
  induction w as [|x w IH].
  - cbn [app star cls_any]. now rewrite Hstop.
  - cbn [forallb] in Hw. apply andb_prop in Hw as [Hx Hw].
    apply negb_true_iff in Hx. rewrite Ascii.eqb_sym in Hx.
    cbn [app star cls_any]. rewrite (Hgo x _ Hx). cbn [seg_cons].
    now rewrite (IH Hw).
Qed.

Lemma lazy_stopped (l : ascii) (s seg : str) (segs : list str) (rest : str) :
  star false cls_any (matchAt [Lit [l]]) s = Some (seg :: segs, rest) ->
  SpecWords.sep_free l seg.
Proof.
  unfold SpecWords.sep_free. revert seg segs rest.
  induction s as [|x s IH]; intros seg segs rest.
  - cbn [star]. change (matchAt [Lit [l]] []) with (@None (list str * str)).
    discriminate.
  - cbn [star cls_any].
    destruct (seg_cons [] (matchAt [Lit [l]] (x :: s))) as [r|] eqn:Hk.
    + destruct (matchAt [Lit [l]] (x :: s)) as [[sg rs]|];
        cbn [seg_cons] in Hk; [|discriminate Hk].
      injection Hk as <-. intros [= <- _ _]. reflexivity.
    + assert (Hx : Ascii.eqb l x = false).
      { destruct (Ascii.eqb l x) eqn:Hx; [|reflexivity].
        cbn [matchAt strip_prefix] in Hk. rewrite Hx in Hk.
        cbn [seg_cons] in Hk. discriminate Hk. }
      destruct (star false cls_any (matchAt [Lit [l]]) s)
        as [[[|seg' segs'] rest']|] eqn:Hs; cbn [seg_push]; try discriminate.
      intros [= <- _ _]. cbn [forallb].
      rewrite Ascii.eqb_sym, Hx. cbn [negb andb]. exact (IH _ _ _ eq_refl).
Qed.

(** *** The search returns the leftmost match *)

Lemma search_leftmost (r : list atom) (s : str) (m : found) :
  search r s = Some m ->
  forall b rest,
    s = b ++ rest -> List.length b < List.length (f_before m) ->
    matchAt r rest = None.
Proof.
  revert m. induction s as [|c s IH]; intros m; cbn [search].
  - destruct (matchAt r []) as [[sg rs]|]; [|discriminate].
    intros [= <-] b rest _ Hlen. cbn in Hlen. lia.
  - destruct (matchAt r (c :: s)) as [[sg rs]|] eqn:E.
    + intros [= <-] b rest _ Hlen. cbn in Hlen. lia.
    + destruct (search r s) as [m'|] eqn:E'; cbn [shift]; [|discriminate].
      intros [= <-] b rest Hs Hlen. cbn [f_before List.length] in Hlen.
      destruct b as [|x b].
      * cbn [app] in Hs. now rewrite <- Hs.
      * cbn [app] in Hs. injection Hs as _ Hs.
        apply (IH m' eq_refl b rest Hs). cbn [List.length] in Hlen. lia.
Qed.

Lemma search_nowhere (r : list atom) (s : str) :
  search r s = None ->
  forall b rest, s = b ++ rest -> matchAt r rest = None.
Proof.
  induction s as [|c s IH]; cbn [search].
  - destruct (matchAt r []) as [[sg rs]|] eqn:E; [discriminate|].
    intros _ b rest Hs. symmetry in Hs. apply app_eq_nil in Hs as [_ ->].
    exact E.
  - destruct (matchAt r (c :: s)) as [[sg rs]|] eqn:E; [discriminate|].
    destruct (search r s) as [m'|] eqn:E'; cbn [shift]; [discriminate|].
    intros _ b rest Hs. destruct b as [|x b].
    + cbn [app] in Hs. now rewrite <- Hs.
    + cbn [app] in Hs. injection Hs as _ Hs. exact (IH eq_refl b rest Hs).
Qed.

Lemma search_matched (r : list atom) (s : str) (m : found) :
  search r s = Some m ->
  exists rest,
    s = f_before m ++ rest /\ matchAt r rest = Some (f_segs m, f_after m).
Proof.
  revert m. induction s as [|c s IH]; intros m; cbn [search].
  - destruct (matchAt r []) as [[sg rs]|] eqn:E; [|discriminate].
    intros [= <-]. now exists [].
  - destruct (matchAt r (c :: s)) as [[sg rs]|] eqn:E.
    + intros [= <-]. now exists (c :: s).
    + destruct (search r s) as [m'|] eqn:E'; cbn [shift]; [|discriminate].
      intros [= <-]. destruct (IH m' eq_refl) as (rest & Hs & Hm).
      exists rest. cbn [f_before f_segs f_after app]. now rewrite Hs at 1.
Qed.

End JSFacts.

(** * src/utils/option-normalizer.ts: the normalized directory *)
Module OptionNormalizerFacts.
Import JS JSFacts OptionNormalizer.

Lemma endsWith_char_app (x p : str) (c : ascii) :
  p <> [] -> endsWith (x ++ p) [c] = endsWith p [c].
Proof.
  intros Hp. unfold endsWith. rewrite rev_app_distr.
  destruct (rev p) as [|d r] eqn:E.
  - apply (f_equal (@rev ascii)) in E. rewrite rev_involutive in E.
    now subst p.
  - unfold startsWith. simpl. now destruct (Ascii.eqb c d).
Qed.

(** C9.  Whatever the raw options, the normalized directory ends in a
    slash; a non-empty [path] option is prefixed with [src/] without any
    test (a slash is added behind it when it has none), so that
    [app/users] becomes [src/app/users/]; a missing or empty [path] gives
    [src/]. *)
Theorem normalizeOptions_directory `{Strings} (options : GenerateOptions) :
  let directory := normalizedPath (normalizeOptions options) in
  endsWith directory "/" = true /\
  directory =
    match opt_path options with
    | Some (c :: p) =>
        "src/" ++ (c :: p) ++ (if endsWith (c :: p) "/" then empty else "/")
    | Some [] | None => "src/"
    end /\
  (opt_path options = Some ("app/users" : str) ->
   directory = "src/app/users/").
Proof.
  cbv zeta. unfold normalizeOptions. cbn [normalizedPath].
  destruct (opt_path options) as [[|c p]|] eqn:Hp; cbn [truthy_str].
  - split; [reflexivity|]. split; [reflexivity|]. discriminate.
  - assert (He : endsWith ("src/" ++ c :: p) "/" = endsWith (c :: p) "/")
      by (apply endsWith_char_app; discriminate).
    rewrite He. destruct (endsWith (c :: p) "/") eqn:Hc.
    + split; [now rewrite He|]. split; [now rewrite app_nil_r|].
      intros [= -> ->]. discriminate Hc.
    + split; [apply (endsWith_app ("src/" ++ c :: p) "/")|].
      split; [now rewrite <- app_assoc|].
      intros [= -> ->]. reflexivity.
  - split; [reflexivity|]. split; [reflexivity|]. discriminate.
Qed.

(** The options [{ name: create user, path: app/users }]. *)
Lemma normalizeOptions_directory_witness :
  normalizedPath
    (@normalizeOptions Devkit.strings
       {| opt_name := "create user"; opt_path := Some ("app/users" : str);
          opt_skipImport := None; opt_flat := None |})
  = "src/app/users/".
Proof.
  apply (@normalizeOptions_directory Devkit.strings
           {| opt_name := "create user"; opt_path := Some ("app/users" : str);
              opt_skipImport := None; opt_flat := None |}).
  reflexivity.
Defined.

End OptionNormalizerFacts.

(** * src/utils/path-utilities.ts: segments and relative paths *)
Module PathFacts.
Import JS JSFacts PathUtilities SpecWords.

Lemma split_slash_free (w : str) : slash_free w -> split "/" w = [w].
Proof. apply split_sep_free. Qed.

Lemma split_parts_slash_free (s : str) : Forall slash_free (split "/" s).
Proof. apply split_parts_sep_free. Qed.

Lemma segments_are_segments (p : str) : Forall segment (segments p).
Proof.
  unfold segments. pose proof (split_parts_slash_free p) as Hall.
  induction Hall as [|w ws Hw _ IH]; simpl; [constructor|].
  destruct w as [|c w]; simpl; [exact IH|].
  constructor; [|exact IH]. split; [discriminate|exact Hw].
Qed.

Lemma segments_app_slash (a b : str) :
  segments (a ++ "/"%char :: b) = segments a ++ segments b.
Proof. unfold segments. now rewrite split_app_sep, filter_app. Qed.

Lemma segments_segment (w : str) : segment w -> segments w = [w].
Proof.
  intros [Hne Hw]. unfold segments. rewrite (split_slash_free w Hw).
  destruct w; [contradiction|reflexivity].
Qed.

Lemma segments_join (parts : list str) :
  Forall segment parts -> segments (join "/" parts) = parts.
Proof.
  induction 1 as [|w ws Hw Hws IH]; [reflexivity|].
  destruct ws as [|v ws].
  - simpl. now apply segments_segment.
  - change (join "/" (w :: v :: ws)) with (w ++ "/"%char :: join "/" (v :: ws)).
    rewrite segments_app_slash, IH. now rewrite (segments_segment w Hw).
Qed.

(** The replacement by [trailing_slash] removes one final slash. *)
Lemma search_trailing_slash (s : str) :
  search trailing_slash s =
  if endsWith s "/" then Some (Found (removelast s) ["/" : str; []] [])
  else None.
Proof.
  induction s as [|c s IH]; [reflexivity|].
  assert (Hlater : s <> [] ->
            shift c (search trailing_slash s) =
            if endsWith (c :: s) "/"
            then Some (Found (removelast (c :: s)) ["/" : str; []] [])
            else None).
  { intros Hs. rewrite IH.
    change (endsWith (c :: s) "/") with (endsWith ([c] ++ s) ["/"%char]).
    rewrite (OptionNormalizerFacts.endsWith_char_app [c] s "/" Hs).
    change (endsWith s ["/"%char]) with (endsWith s "/").
    destruct (endsWith s "/"); [|reflexivity].
    simpl. destruct s; [contradiction|reflexivity]. }
  assert (Hhere : matchAt trailing_slash (c :: s) =
                  if Ascii.eqb "/" c
                  then match s with
                       | [] => Some (["/" : str; []], [])
                       | _ :: _ => None
                       end
                  else None).
  { unfold trailing_slash. cbn -[Ascii.eqb].
    destruct (Ascii.eqb "/" c); [|reflexivity]. now destruct s. }
  change (search trailing_slash (c :: s)) with
    (match matchAt trailing_slash (c :: s) with
     | Some (segs, rest) => Some (Found [] segs rest)
     | None => shift c (search trailing_slash s)
     end).
  rewrite Hhere. destruct (Ascii.eqb_spec "/" c) as [<-|Hc].
  - destruct s as [|d s]; [reflexivity|]. apply Hlater. discriminate.
  - destruct s as [|d s]; [|apply Hlater; discriminate].
    unfold endsWith, startsWith. cbn -[Ascii.eqb].
    destruct (Ascii.eqb_spec "/" c); [contradiction|reflexivity].
Qed.

Lemma strip_trailing_slash (s : str) :
  replace_re trailing_slash empty s = if endsWith s "/" then removelast s else s.
Proof.
  unfold replace_re, replace_fn. rewrite search_trailing_slash.
  destruct (endsWith s "/"); [|reflexivity]. simpl. now rewrite app_nil_r.
Qed.

Lemma segments_strip_trailing_slash (s : str) :
  filter nonempty (split "/" (replace_re trailing_slash empty s)) = segments s.
Proof.
  rewrite strip_trailing_slash. destruct (endsWith s "/") eqn:E; [|reflexivity].
  apply endsWith_true in E as [r ->].
  change (r ++ "/") with (r ++ ["/"%char]). rewrite removelast_last.
  change (filter nonempty (split "/" r)) with (segments r).
  rewrite segments_app_slash. cbn. now rewrite app_nil_r.
Qed.

Lemma commonLength_diverge (a b common a' b' : list str) :
  diverge_after a b common a' b' -> commonLength a b = List.length common.
Proof.
  intros (-> & -> & Hd).
  induction common as [|c cs IH]; cbn [commonLength app List.length].
  - destruct a' as [|x a']; [reflexivity|]. destruct b' as [|y b']; [reflexivity|].
    apply str_eqb_neq in Hd. cbn [commonLength]. now rewrite Hd.
  - now rewrite str_eqb_refl, IH.
Qed.

Lemma diverge_after_exists (a b : list str) :
  exists common a' b', diverge_after a b common a' b'.
Proof.
  revert b. induction a as [|x a IH]; intros b.
  - exists [], [], b. now repeat split.
  - destruct b as [|y b].
    + exists [], (x :: a), []. now repeat split.
    + destruct (list_eq_dec ascii_dec x y) as [<-|Hxy].
      * destruct (IH b) as (c & a' & b' & -> & -> & Hd).
        exists (x :: c), a', b'. now repeat split.
      * exists [], (x :: a), (y :: b). now repeat split.
Qed.

Lemma getRelativePath_formula (from to : str) (common fromRest toRest : list str) :
  diverge_after (segments from) (segments to) common fromRest toRest ->
  getRelativePath from to =
  if startsWith (climb fromRest toRest) "../" then climb fromRest toRest
  else "./" ++ climb fromRest toRest.
Proof.
  intros Hd. unfold getRelativePath. rewrite segments_strip_trailing_slash.
  change (filter nonempty (split "/" to)) with (segments to).
  rewrite (commonLength_diverge _ _ _ _ _ Hd).
  destruct Hd as (-> & -> & _).
  rewrite length_app, skipn_app, skipn_all, Nat.sub_diag. simpl skipn.
  replace (List.length common + List.length fromRest - List.length common)
    with (List.length fromRest) by lia.
  reflexivity.
Qed.

Lemma dotdot_segment : segment "..".
Proof. split; [discriminate|reflexivity]. Qed.

Lemma segments_climb (fromRest toRest : list str) :
  Forall segment toRest ->
  segments (climb fromRest toRest) =
  repeat (".." : str) (List.length fromRest) ++ toRest.
Proof.
  intros Ht. apply segments_join. apply Forall_app. split; [|exact Ht].
  apply Forall_forall. intros x Hx. apply repeat_spec in Hx. subst x.
  exact dotdot_segment.
Qed.

Lemma fold_step_plain (f entered : list str) :
  Forall (fun x => plain x = true) f ->
  fold_left step f entered = rev f ++ entered.
Proof.
  intros Hf. revert entered. induction Hf as [|x f Hx _ IH]; intros entered.
  - reflexivity.
  - simpl. rewrite <- app_assoc. simpl. rewrite <- IH. f_equal.
    unfold plain in Hx. apply andb_prop in Hx as [H1 H2].
    unfold step. apply negb_true_iff in H1, H2. now rewrite H1, H2.
Qed.

Lemma fold_step_leave (g entered : list str) :
  Forall (fun x => plain x = true) g ->
  fold_left step (repeat (".." : str) (List.length g)) (g ++ entered) = entered.
Proof.
  intros Hg. induction Hg as [|x g Hx _ IH]; [reflexivity|].
  simpl. rewrite <- IH at 2. f_equal.
  unfold plain in Hx. apply andb_prop in Hx as [_ H2].
  apply negb_true_iff in H2. unfold step.
  change (str_eqb ".." ".") with false. change (str_eqb ".." "..") with true.
  cbv iota. now rewrite H2.
Qed.

Lemma fold_step_there_and_back (f dots entered : list str) :
  Forall (fun x => plain x = true) f ->
  dots = [] \/ dots = ["." : str] ->
  fold_left step (f ++ dots ++ repeat (".." : str) (List.length f)) entered
  = entered.
Proof.
  intros Hf Hdots. rewrite !fold_left_app, (fold_step_plain f entered Hf).
  assert (Hd : fold_left step dots (rev f ++ entered) = rev f ++ entered)
    by (destruct Hdots as [-> | ->]; reflexivity).
  rewrite Hd, <- (length_rev f). apply fold_step_leave.
  now apply Forall_rev.
Qed.

Lemma getRelativePath_resolves (from to : str) (common fromRest toRest : list str) :
  diverge_after (segments from) (segments to) common fromRest toRest ->
  Forall (fun x => plain x = true) fromRest ->
  resolve from (getRelativePath from to) = normalize to.
Proof.
  intros Hd Hplain. rewrite (getRelativePath_formula _ _ _ _ _ Hd).
  pose proof (segments_are_segments to) as Hto.
  destruct Hd as (Hf & Ht & _). rewrite Ht in Hto.
  apply Forall_app in Hto as [_ Hrest].
  assert (Hsegs : exists dots, (dots = [] \/ dots = ["." : str]) /\
            segments (if startsWith (climb fromRest toRest) "../"
                      then climb fromRest toRest
                      else "./" ++ climb fromRest toRest)
            = dots ++ repeat (".." : str) (List.length fromRest) ++ toRest).
  { destruct (startsWith (climb fromRest toRest) "../").
    - exists []. split; [now left|]. now apply segments_climb.
    - exists ["." : str]. split; [now right|].
      change ("./" ++ climb fromRest toRest)
        with ("." ++ "/"%char :: climb fromRest toRest).
      rewrite segments_app_slash, segments_climb by assumption. reflexivity. }
  destruct Hsegs as (dots & Hdots & Hsegs).
  unfold resolve, normalize, walk. rewrite Hsegs. f_equal. rewrite Hf, Ht.
  replace ((common ++ fromRest) ++
           dots ++ repeat (".." : str) (List.length fromRest) ++ toRest)
    with (common ++
          (fromRest ++ dots ++ repeat (".." : str) (List.length fromRest))
          ++ toRest)
    by now rewrite <- !app_assoc.
  rewrite (fold_left_app step common toRest).
  rewrite (fold_left_app step common), (fold_left_app step _ toRest).
  f_equal. now apply fold_step_there_and_back.
Qed.

Lemma segment_not_climbing (w : str) : segment w -> startsWith w "../" = false.
Proof.
  intros [_ Hw]. destruct (startsWith w "../") eqn:E; [|reflexivity].
  apply startsWith_true in E as [r ->]. discriminate Hw.
Qed.

Lemma getParentPath_one_level (path : str) :
  getParentPath path 1 = directory_text (removelast (segments path)).
Proof.
  unfold getParentPath. rewrite segments_strip_trailing_slash.
  unfold pop_levels. now destruct (segments path).
Qed.

(** C6, the claim as stated fails: the source directory [./src/] and the
    target [src/handlers/foo.handler] share no leading segment, the path
    computed climbs two levels and resolves outside the tree. *)
Lemma getRelativePath_does_not_resolve_back :
  getRelativePath "./src/" "src/handlers/foo.handler"
    = "../../src/handlers/foo.handler" /\
  resolve "./src/" (getRelativePath "./src/" "src/handlers/foo.handler")
    <> normalize "src/handlers/foo.handler".
Proof. split; [reflexivity|]. vm_compute. discriminate. Qed.

(** C6, amended.  With [common] the longest common prefix of the segments of
    the source directory and of the target, [getRelativePath] returns one
    [..] for each source segment beyond it, then the target segments beyond
    it, joined by slashes, with [./] in front unless that text starts with
    [../]; a target directly inside the source directory gives
    [./basename]; from [a/b/] to [a/c/d] the path is [../c/d]; and when no
    source segment beyond the common prefix is [.] or [..], the path
    resolved against the source directory is the target. *)
Theorem getRelativePath_relative
  (from to : str) (common fromRest toRest : list str) :
  diverge_after (segments from) (segments to) common fromRest toRest ->
  getRelativePath from to =
    (if startsWith (climb fromRest toRest) "../" then climb fromRest toRest
     else "./" ++ climb fromRest toRest) /\
  (forall base, fromRest = [] -> toRest = [base] ->
     getRelativePath from to = "./" ++ base) /\
  getRelativePath "a/b/" "a/c/d" = "../c/d" /\
  (Forall (fun x => plain x = true) fromRest ->
     resolve from (getRelativePath from to) = normalize to).
Proof.
  intros Hd. split; [exact (getRelativePath_formula _ _ _ _ _ Hd)|].
  split; [|split; [reflexivity|]];
    [|intros Hp; exact (getRelativePath_resolves _ _ _ _ _ Hd Hp)].
  intros base -> ->. rewrite (getRelativePath_formula _ _ _ _ _ Hd).
  pose proof (segments_are_segments to) as Hto.
  destruct Hd as (_ & Ht & _). rewrite Ht in Hto.
  apply Forall_app in Hto as [_ Hbase]. inversion Hbase as [|? ? Hb _]; subst.
  change (climb [] [base]) with base.
  now rewrite (segment_not_climbing base Hb).
Qed.

(** From [a/b/] to [a/c/d]: one segment shared, one to climb. *)
Lemma getRelativePath_relative_witness :
  diverge_after (segments "a/b/") (segments "a/c/d")
    ["a" : str] ["b" : str] ["c" : str; "d" : str] /\
  resolve "a/b/" (getRelativePath "a/b/" "a/c/d") = normalize "a/c/d".
Proof.
  assert (Hd : diverge_after (segments "a/b/") (segments "a/c/d")
                 ["a" : str] ["b" : str] ["c" : str; "d" : str])
    by (repeat split; discriminate).
  split; [exact Hd|].
  apply (getRelativePath_relative _ _ _ _ _ Hd). repeat constructor.
Defined.

End PathFacts.

(** * src/utils/module-updater.ts: locating the module file *)
Module LocatorFacts.
Import JS JSFacts PathUtilities SpecWords PathFacts ModuleUpdater.

Section WithTree.
Context {T : Type} `{Tree T}.

(** C7.  [findModuleFile] looks at one directory only, the one a level
    above the target directory: the answer is read off the listing of
    that directory.  When the listing cannot be had, or holds no name
    ending in [.module.ts], the answer is [null]; otherwise it is the
    first such name of the listing, behind the directory's text, be
    there one or several. *)
Theorem findModuleFile_policy (tree : T) (currentPath : str) :
  let parentPath := getParentPath currentPath 1 in
  parentPath = directory_text (removelast (segments currentPath)) /\
  (forall tree' : T,
     getDir_subfiles tree' parentPath = getDir_subfiles tree parentPath ->
     findModuleFile tree' currentPath = findModuleFile tree currentPath) /\
  match getDir_subfiles tree parentPath with
  | Throw _ => findModuleFile tree currentPath = None
  | Ok subfiles =>
      match filter (fun file => endsWith file ".module.ts") subfiles with
      | [] => findModuleFile tree currentPath = None
      | [only] => findModuleFile tree currentPath = Some (parentPath ++ only)
      | first :: _ :: _ =>
          findModuleFile tree currentPath = Some (parentPath ++ first)
      end
  end.
Proof.
  cbv zeta. split; [apply getParentPath_one_level|]. split.
  - intros tree' Hsame. unfold findModuleFile. now rewrite Hsame.
  - unfold findModuleFile.
    destruct (getDir_subfiles tree (getParentPath currentPath 1))
      as [subfiles|msg]; [|reflexivity].
    destruct (filter (fun file => endsWith file ".module.ts") subfiles)
      as [|first [|second rest]]; reflexivity.
Qed.
End WithTree.

End LocatorFacts.

(** * src/command/command.ts: the guard of the module update *)
Module CommandGuardFacts.
Import JS JSFacts PathUtilities OptionNormalizer SpecWords Samples Command.

Lemma includes_nil (pat : str) : includes [] pat = true -> pat = [].
Proof.
  unfold includes. simpl. destruct pat; [reflexivity|discriminate].
Qed.

Section WithTree.
Context {T : Type} `{Tree T} `{Strings}.

(** C10.  When the text of the classified handler name occurs anywhere
    in the module file, the command generator's [updateModuleFile]
    returns normally and leaves the tree as it found it. *)
Theorem updateModuleFile_skips_known_handler
  (tree : T) (name normalizedPath : str) (flat : bool)
  (modulePath moduleContent : str) :
  findModuleFile tree normalizedPath = Some modulePath ->
  read tree modulePath = Ok (Some moduleContent) ->
  includes moduleContent (classify name ++ "Handler") = true ->
  updateModuleFile name normalizedPath flat tree = (tree, Ok tt).
Proof.
  intros Hfind Hread Hocc. unfold updateModuleFile. rewrite Hfind.
  destruct modulePath as [|c modulePath]; [reflexivity|].
  cbn [truthy_str]. unfold rethrow, bind, tree_read. rewrite Hread.
  destruct moduleContent as [|d moduleContent].
  - apply includes_nil in Hocc. now destruct (classify name).
  - cbn [truthy_str]. unfold patchModuleContent.
    rewrite Hocc, orb_true_r. reflexivity.
Qed.
End WithTree.

(** A module file that names [CreateUserHandler] in a comment only. *)
Lemma updateModuleFile_skips_known_handler_witness :
  @updateModuleFile MemTree.t MemTree.tree Devkit.strings
    "create-user" "src/" false [("app.module.ts" : str, commented_module)]
  = ([("app.module.ts" : str, commented_module)], Ok tt).
Proof.
  apply (@updateModuleFile_skips_known_handler
           MemTree.t MemTree.tree Devkit.strings
           [("app.module.ts" : str, commented_module)]
           "create-user" "src/" false "app.module.ts" commented_module);
    reflexivity.
Defined.

End CommandGuardFacts.

(** * Lines of a text *)
Module LineFacts.
Import JS JSFacts SpecWords.

Lemma split_app (sep : ascii) (a b : str) :
  split sep (a ++ b) =
  removelast (split sep a)
  ++ (last (split sep a) [] ++ hd [] (split sep b)) :: tl (split sep b).
Proof.
  induction a as [|c a IH].
  - simpl. pose proof (split_not_nil sep b).
    now destruct (split sep b).
  - pose proof (split_not_nil sep a) as Ha.
    cbn [app split]. rewrite IH. destruct (Ascii.eqb c sep).
    + destruct (split sep a) as [|w ws]; [contradiction|reflexivity].
    + destruct (split sep a) as [|w [|v ws]]; [contradiction| |]; reflexivity.
Qed.

Lemma split_hd_sep_free (sep : ascii) (s : str) :
  sep_free sep (hd [] (split sep s)).
Proof.
  pose proof (split_parts_sep_free sep s) as Hall.
  destruct (split sep s); [reflexivity|]. now inversion Hall.
Qed.

Lemma split_last_sep_free (sep : ascii) (s : str) :
  sep_free sep (last (split sep s) []).
Proof.
  pose proof (split_parts_sep_free sep s) as Hall.
  induction Hall as [|w ws Hw Hws IH]; [reflexivity|].
  destruct ws; [exact Hw|exact IH].
Qed.

(** The lines of a text in three parts: the lines wholly in the first part,
    the lines the middle part touches, the lines wholly in the last part. *)
Lemma lines_around (a b c : str) :
  lines (a ++ b ++ c) =
  removelast (lines a)
  ++ lines (last (lines a) [] ++ b ++ hd [] (lines c))
  ++ tl (lines c).
Proof.
  unfold lines.
  set (la := last (split nl a) []). set (hc := hd [] (split nl c)).
  assert (Hla : split nl la = [la])
    by (apply split_sep_free, split_last_sep_free).
  assert (Hhc : split nl hc = [hc])
    by (apply split_sep_free, split_hd_sep_free).
  assert (Hbc : split nl (b ++ c) = split nl (b ++ hc) ++ tl (split nl c)).
  { rewrite (split_app nl b c), (split_app nl b hc), Hhc. simpl.
    now rewrite <- app_assoc. }
  rewrite (split_app nl a (b ++ c)), Hbc.
  rewrite (split_app nl la (b ++ hc)), Hla. fold la. simpl.
  pose proof (split_not_nil nl (b ++ hc)) as Hn.
  destruct (split nl (b ++ hc)); [contradiction|reflexivity].
Qed.

End LineFacts.

(** * src/utils/content-manipulator.ts: the registration insertion *)
Module ProviderFacts.
Import JS JSFacts SpecWords LineFacts Samples ContentManipulator.

Lemma providers_found (content : str) (m : found) :
  search providersRegex content = Some m ->
  exists blanks providers,
    f_segs m = ["providers:" : str; blanks; "[" : str; providers; "]" : str] /\
    forallb is_space blanks = true /\
    content =
      f_before m ++ ("providers:" ++ blanks ++ "[" ++ providers ++ "]")
      ++ f_after m.
Proof.
  intros Hs. apply search_sound in Hs as [Hc Hsegs]. unfold f_match in Hc.
  unfold providersRegex in Hsegs.
  pose proof (Forall2_length Hsegs) as Hlen.
  destruct (f_segs m) as [|s1 [|s2 [|s3 [|s4 [|s5 [|s6 rest]]]]]];
    try discriminate Hlen.
  rewrite !Forall2_cons_iff in Hsegs.
  destruct Hsegs as (H1 & H2 & H3 & _ & H5 & _). simpl in H1, H2, H3, H5.
  subst s1 s3 s5. exists s2, s4. split; [reflexivity|]. split; [exact H2|].
  rewrite Hc at 1. cbn [List.concat]. now rewrite app_nil_r, <- !app_assoc.
Qed.

(** An array literal at the head of a text is matched, up to its first
    closing bracket. *)
Lemma array_matches (blanks providers after : str) :
  forallb is_space blanks = true ->
  sep_free "]" providers ->
  matchAt providersRegex (array_literal blanks providers ++ after)
  = Some (["providers:" : str; blanks; "[" : str; providers; "]" : str], after).
Proof.
  intros Hblanks Hprov. unfold providersRegex, array_literal.
  rewrite <- !app_assoc.
  change (matchAt (Lit "providers:" :: ?r) ("providers:" ++ ?s))
    with (seg_cons "providers:" (matchAt r s)).
  change (matchAt (Star true is_space :: ?r))
    with (star true is_space (matchAt r)).
  rewrite (star_takes_the_run is_space _ blanks
             ("[" ++ providers ++ "]" ++ after)
             ["[" : str; providers; "]" : str] after Hblanks eq_refl);
    [reflexivity|].
  change (matchAt (Lit "[" :: ?r) ("[" ++ ?s))
    with (seg_cons "[" (matchAt r s)).
  change (matchAt [Star false cls_any; Lit "]"])
    with (star false cls_any (matchAt [Lit ["]"%char]])).
  change ("]" ++ after) with ("]"%char :: after).
  now rewrite (lazy_up_to "]" providers after Hprov).
Qed.

(** What the pattern has matched is an array literal. *)
Lemma array_matched (rest : str) (segs : list str) (after : str) :
  matchAt providersRegex rest = Some (segs, after) ->
  exists blanks providers,
    segs = ["providers:" : str; blanks; "[" : str; providers; "]" : str] /\
    rest = array_literal blanks providers ++ after /\
    forallb is_space blanks = true /\
    sep_free "]" providers.
Proof.
  intros Hm. pose proof (matchAt_sound _ _ _ _ Hm) as [Hrest Hsegs].
  unfold providersRegex in Hsegs.
  pose proof (Forall2_length Hsegs) as Hlen.
  destruct segs as [|s1 [|s2 [|s3 [|s4 [|s5 [|s6 segs]]]]]];
    try discriminate Hlen.
  rewrite !Forall2_cons_iff in Hsegs.
  destruct Hsegs as (H1 & H2 & H3 & _ & H5 & _). cbn [atom_ok] in H1, H2, H3, H5.
  subst s1 s3 s5. exists s2, s4. split; [reflexivity|]. split; [|split].
  - rewrite Hrest. unfold array_literal. cbn [List.concat].
    now rewrite app_nil_r, <- !app_assoc.
  - exact H2.
  - unfold providersRegex in Hm.
    change (matchAt (Lit "providers:" :: ?r) rest)
      with (match strip_prefix "providers:" rest with
            | Some s' => seg_cons "providers:" (matchAt r s')
            | None => None
            end) in Hm.
    destruct (strip_prefix "providers:" rest) as [r1|]; [|discriminate Hm].
    destruct (matchAt [Star true is_space; Lit "["; Star false cls_any; Lit "]"] r1)
      as [[sg1 rs1]|] eqn:E1; cbn [seg_cons] in Hm; [|discriminate Hm].
    injection Hm as -> ->.
    change (matchAt (Star true is_space :: ?r))
      with (star true is_space (matchAt r)) in E1.
    apply star_sound in E1 as (seg & segs' & r2 & [= _ <-] & _ & _ & E2).
    change (matchAt (Lit "[" :: ?r) r2)
      with (match strip_prefix "[" r2 with
            | Some s' => seg_cons "[" (matchAt r s')
            | None => None
            end) in E2.
    destruct (strip_prefix "[" r2) as [r3|]; [|discriminate E2].
    destruct (matchAt [Star false cls_any; Lit "]"] r3)
      as [[sg3 rs3]|] eqn:E3; cbn [seg_cons] in E2; [|discriminate E2].
    injection E2 as -> ->.
    change (matchAt [Star false cls_any; Lit "]"])
      with (star false cls_any (matchAt [Lit ["]"%char]])) in E3.
    exact (lazy_stopped _ _ _ _ _ E3).
Qed.

Lemma no_match_no_array (rest : str) :
  matchAt providersRegex rest = None -> ~ starts_array rest.
Proof.
  intros Hm (blanks & providers & after & -> & Hblanks & Hprov).
  rewrite (array_matches blanks providers after Hblanks Hprov) in Hm.
  discriminate Hm.
Qed.

(** The pattern finds the first array literal of the content, and finds
    none only where there is none. *)
Lemma search_first_array (content : str) (m : found) :
  search providersRegex content = Some m ->
  exists blanks providers,
    f_segs m = ["providers:" : str; blanks; "[" : str; providers; "]" : str] /\
    first_array content (f_before m) blanks providers (f_after m).
Proof.
  intros Hs. destruct (search_matched _ _ _ Hs) as (rest & Hcontent & Hm).
  destruct (array_matched _ _ _ Hm)
    as (blanks & providers & Hsegs & Hrest & Hblanks & Hprov).
  exists blanks, providers. split; [exact Hsegs|].
  split; [now rewrite Hcontent, Hrest|]. split; [exact Hblanks|].
  split; [exact Hprov|].
  intros b rest' Hc Hlen. apply no_match_no_array.
  exact (search_leftmost _ _ _ Hs b rest' Hc Hlen).
Qed.

Lemma search_no_array (content : str) :
  search providersRegex content = None -> no_array content.
Proof.
  intros Hs b rest Hc. apply no_match_no_array.
  exact (search_nowhere _ _ Hs b rest Hc).
Qed.

Lemma app_same_length {A : Type} (a b c d : list A) :
  List.length a = List.length c -> a ++ b = c ++ d -> a = c /\ b = d.
Proof.
  revert c. induction a as [|x a IH]; intros [|y c] Hlen; try discriminate Hlen.
  - now split.
  - cbn [app]. intros [= -> Heq]. injection Hlen as Hlen.
    destruct (IH c Hlen Heq) as [-> ->]. now split.
Qed.

(** A content has one first array literal at most. *)
Lemma first_array_unique
  (content before blanks providers after before' blanks' providers' after' : str) :
  first_array content before blanks providers after ->
  first_array content before' blanks' providers' after' ->
  before = before' /\ blanks = blanks' /\ providers = providers' /\
  after = after'.
Proof.
  intros (Hc & Hb & Hp & Hfirst) (Hc' & Hb' & Hp' & Hfirst').
  assert (Hlen : List.length before = List.length before').
  { destruct (Nat.lt_trichotomy (List.length before) (List.length before'))
      as [Hlt | [Heq | Hgt]]; [|exact Heq|].
    - exfalso. apply (Hfirst' before _ Hc Hlt).
      now exists blanks, providers, after.
    - exfalso. apply (Hfirst before' _ Hc' Hgt).
      now exists blanks', providers', after'. }
  rewrite Hc' in Hc. symmetry in Hc.
  apply (app_same_length _ _ _ _ Hlen) in Hc as [<- Hlit].
  pose proof (array_matches blanks providers after Hb Hp) as Hm.
  rewrite Hlit, (array_matches blanks' providers' after' Hb' Hp') in Hm.
  injection Hm as -> -> ->. now repeat split.
Qed.

Section WithStrings.
Context `{Strings}.

(** What [addProviderEntry] does to a content in which the pattern is
    found. *)
Lemma addProviderEntry_found (content providerEntry name : str) (m : found)
  (blanks providers : str) :
  search providersRegex content = Some m ->
  f_segs m = ["providers:" : str; blanks; "[" : str; providers; "]" : str] ->
  addProviderEntry content providerEntry name =
  f_before m ++
  (if includes providers (classify name ++ "Handler")
   then "providers:" ++ blanks ++ "[" ++ providers ++ "]"
   else "providers: [" ++ trim providers
        ++ (if nonempty (trim providers) && negb (endsWith (trim providers) ",")
            then "," else empty)
        ++ NL ++ providerEntry ++ NL ++ "  ]")
  ++ f_after m.
Proof.
  intros Hs Hsegs. unfold addProviderEntry, replace_fn. rewrite Hs.
  unfold group1, f_match. rewrite Hsegs. cbn [nth List.concat].
  destruct (includes providers (classify name ++ "Handler")).
  - now rewrite app_nil_r, <- !app_assoc.
  - destruct (nonempty (trim providers) && negb (endsWith (trim providers) ","));
      reflexivity.
Qed.

(** C2, amended.  The registration insertion looks for the first array
    literal of the content: the marker [providers:], white space, an
    opening bracket, the inner text up to the first closing bracket, and
    that bracket.  Where there is none the content is returned as it is.
    Otherwise the text before the literal and the text after it are kept
    as they are, so every line wholly before the marker's line or wholly
    after the bracket's line stays where it was, and the literal is kept
    when its inner text holds the name of the handler, and else written
    anew as [providers: [], the old inner text without the white space
    around it, a comma if that text is not empty and has none at its end, a
    line feed, the entry, a line feed and two spaces before the bracket:
    the lines the literal touches may be rewritten or merged. *)
Theorem addProviderEntry_rewrites_the_array_only
  (content providerEntry name : str) :
  (no_array content /\
   addProviderEntry content providerEntry name = content) \/
  exists before blanks providers after,
    first_array content before blanks providers after /\
    let old := array_literal blanks providers in
    let separator : str :=
      if nonempty (trim providers) && negb (endsWith (trim providers) ",")
      then "," else empty in
    let new :=
      if includes providers (classify name ++ "Handler") then old
      else "providers: [" ++ trim providers ++ separator
           ++ NL ++ providerEntry ++ NL ++ "  ]" in
    addProviderEntry content providerEntry name = before ++ new ++ after /\
    lines content =
      removelast (lines before)
      ++ lines (last (lines before) [] ++ old ++ hd [] (lines after))
      ++ tl (lines after) /\
    lines (addProviderEntry content providerEntry name) =
      removelast (lines before)
      ++ lines (last (lines before) [] ++ new ++ hd [] (lines after))
      ++ tl (lines after).
Proof.
  destruct (search providersRegex content) as [m|] eqn:Hs.
  - right. destruct (search_first_array content m Hs)
      as (blanks & providers & Hsegs & Hfirst).
    exists (f_before m), blanks, providers, (f_after m).
    split; [exact Hfirst|]. cbv zeta.
    pose proof (addProviderEntry_found content providerEntry name m
                  blanks providers Hs Hsegs) as Hres.
    fold (array_literal blanks providers) in Hres.
    destruct Hfirst as (Hcontent & _).
    split; [exact Hres|]. split.
    + rewrite Hcontent at 1. apply lines_around.
    + rewrite Hres. apply lines_around.
  - left. split; [exact (search_no_array content Hs)|].
    unfold addProviderEntry, replace_fn. now rewrite Hs.
Qed.
End WithStrings.

(** C2, the claim as stated fails on a module file in the usual layout:
    the line that opened the array and the line of the first entry are
    merged into one, and neither is a line of the result. *)
Lemma addProviderEntry_merges_lines :
  kept_in_order
    (lines users_module)
    (lines (@addProviderEntry Devkit.strings users_module
              "    CreateUserHandler," "create-user")) = false /\
  In ("  providers: [" : str) (lines users_module) /\
  ~ In ("  providers: [" : str)
       (lines (@addProviderEntry Devkit.strings users_module
                 "    CreateUserHandler," "create-user")).
Proof.
  split; [reflexivity|]. split.
  - vm_compute. tauto.
  - vm_compute. intros Hin.
    repeat (destruct Hin as [Hin|Hin]; [discriminate Hin|]). exact Hin.
Qed.

(** The current source puts one comma behind a last entry that has none and
    none behind one that has. *)
Lemma addProviderEntry_one_comma `{Strings}
  (content providerEntry name : str) (m : found) (blanks providers : str) :
  search providersRegex content = Some m ->
  f_segs m = ["providers:" : str; blanks; "[" : str; providers; "]" : str] ->
  includes providers (classify name ++ "Handler") = false ->
  trim providers <> [] ->
  addProviderEntry content providerEntry name =
  f_before m ++
  ("providers: [" ++ trim providers
   ++ (if endsWith (trim providers) "," then empty else ",")
   ++ NL ++ providerEntry ++ NL ++ "  ]")
  ++ f_after m.
Proof.
  intros Hs Hsegs Hdup Hne.
  rewrite (addProviderEntry_found content providerEntry name m blanks providers
             Hs Hsegs), Hdup.
  destruct (trim providers) as [|c t]; [contradiction|].
  cbn [nonempty andb]. now destruct (endsWith (c :: t) ",").
Qed.

(** C4, the earlier compiled revision at a module file in the usual
    layout: the last entry has its comma, a second one is put behind it.
    The current source, on the same input, adds none. *)
Theorem compiled_addProviderEntry_doubles_the_comma :
  @CommandJs.addProviderEntry Devkit.strings users_module
     "    CreateUserHandler," "create-user"
  = "import { Module } from '@nestjs/common';" ++ NL
    ++ "import { GetUserHandler } from './queries/handlers/get-user.handler';"
    ++ NL ++ NL
    ++ "@Module({" ++ NL
    ++ "  providers: [GetUserHandler,," ++ NL
    ++ "    CreateUserHandler," ++ NL
    ++ "  ]," ++ NL
    ++ "})" ++ NL
    ++ "export class UsersModule {}" ++ NL
  /\
  includes (@addProviderEntry Devkit.strings users_module
              "    CreateUserHandler," "create-user") ",," = false.
Proof. split; reflexivity. Qed.

End ProviderFacts.

(** * src/utils/content-manipulator.ts: the import insertion *)
Module ImportFacts.
Import JS JSFacts SpecWords Samples ContentManipulator.

Lemma expand_plain (matched before after tpl : str) :
  has_dollar tpl = false -> expand matched before after tpl = tpl.
Proof.
  unfold has_dollar. induction tpl as [|c t IH]; [reflexivity|].
  cbn [existsb expand]. rewrite Ascii.eqb_sym.
  destruct (Ascii.eqb c "$"); [discriminate|].
  intros Ht. now rewrite (IH Ht).
Qed.

Lemma expand_nl (matched before after tpl : str) :
  expand matched before after (nl :: tpl)
  = nl :: expand matched before after tpl.
Proof. reflexivity. Qed.

(** A replacement text that ends in a line feed and a text without dollar:
    whatever the part before the line feed expands to, the rest is
    inserted as it is. *)
Lemma expand_then_plain (matched before after tpl : str) (n : nat) :
  forall x : str, List.length x <= n ->
  has_dollar tpl = false ->
  exists x', expand matched before after (x ++ nl :: tpl) = x' ++ nl :: tpl.
Proof.
  induction n as [|n IH]; intros x Hn Htpl.
  - destruct x; [|simpl in Hn; lia]. exists []. cbn [app].
    now rewrite expand_nl, (expand_plain _ _ _ _ Htpl).
  - destruct x as [|c t].
    + apply (IH []); [simpl; lia|exact Htpl].
    + cbn [app expand]. simpl in Hn.
      destruct (IH t ltac:(lia) Htpl) as [t1 Ht1].
      destruct (Ascii.eqb c "$").
      * destruct t as [|d t'].
        -- exists [c]. cbn [app]. change (Ascii.eqb nl "$") with false.
           change (Ascii.eqb nl "&") with false.
           change (Ascii.eqb nl "`") with false.
           change (Ascii.eqb nl squote) with false. cbv iota.
           now rewrite expand_nl, (expand_plain _ _ _ _ Htpl).
        -- cbn [app]. simpl in Hn.
           destruct (IH t' ltac:(lia) Htpl) as [t2 Ht2].
           destruct (Ascii.eqb d "$");
             [exists ("$"%char :: t2); cbn [app]; now rewrite Ht2|].
           destruct (Ascii.eqb d "&");
             [exists (matched ++ t2); now rewrite Ht2, <- app_assoc|].
           destruct (Ascii.eqb d "`");
             [exists (before ++ t2); now rewrite Ht2, <- app_assoc|].
           destruct (Ascii.eqb d squote);
             [exists (after ++ t2); now rewrite Ht2, <- app_assoc|].
           exists (c :: t1). cbn [app] in *. now rewrite Ht1.
      * exists (c :: t1). cbn [app]. now rewrite Ht1.
Qed.

Lemma last_in {A : Type} (l : list A) (d : A) : l <> [] -> In (last l d) l.
Proof.
  induction l as [|x l IH]; [contradiction|]. intros _.
  destruct l as [|y l]; [now left|]. right. apply IH. discriminate.
Qed.

(** Every text [match] returns occurs in the content. *)
Lemma match_all_inside (r : list atom) (content matched : str) :
  In matched (match_all r content) ->
  exists before after, content = before ++ matched ++ after.
Proof.
  unfold match_all. intros Hin. apply in_map_iff in Hin as (m & <- & Hin).
  now apply matches_from_inside in Hin.
Qed.

(** Without an import statement in the content the new one goes on top. *)
Lemma addImportStatement_prepends (content importStatement : str) :
  match_all importRegex content = [] ->
  addImportStatement content importStatement
  = importStatement ++ NL ++ content.
Proof. unfold addImportStatement. now intros ->. Qed.

(** With import statements in the content, the text of the last one is
    looked up again from the top of the content, and the new statement goes
    behind the first place where it stands. *)
Lemma addImportStatement_first_occurrence (content importStatement : str) :
  match_all importRegex content <> [] ->
  exists before after,
    find_sub (last (match_all importRegex content) []) content
      = Some (before, after) /\
    addImportStatement content importStatement
    = before
      ++ expand (last (match_all importRegex content) []) before after
           (last (match_all importRegex content) [] ++ NL ++ importStatement)
      ++ after.
Proof.
  intros Hne. unfold addImportStatement.
  destruct (match_all importRegex content) as [|i0 imports] eqn:Hm;
    [contradiction|].
  set (lastImport := last (i0 :: imports) []).
  assert (Hin : In lastImport (match_all importRegex content))
    by (rewrite Hm; apply last_in; discriminate).
  apply match_all_inside in Hin as (b & a & Hc).
  destruct (find_sub_app lastImport b a) as (before & after & Hfind).
  rewrite <- Hc in Hfind. exists before, after. split; [exact Hfind|].
  unfold replace_str. now rewrite Hfind.
Qed.

(** A statement without dollar is in the content afterwards, letter for
    letter. *)
Lemma addImportStatement_includes (content importStatement : str) :
  has_dollar importStatement = false ->
  includes (addImportStatement content importStatement) importStatement = true.
Proof.
  intros Hplain.
  destruct (match_all importRegex content) as [|i0 imports] eqn:Hm.
  - rewrite (addImportStatement_prepends _ _ Hm).
    apply (includes_app importStatement []).
  - destruct (addImportStatement_first_occurrence content importStatement)
      as (before & after & _ & ->); [rewrite Hm; discriminate|].
    set (lastImport := last (match_all importRegex content) []).
    destruct (expand_then_plain lastImport before after importStatement
                (List.length lastImport) lastImport (le_n _) Hplain)
      as [x' Hx].
    change (lastImport ++ NL ++ importStatement)
      with (lastImport ++ nl :: importStatement).
    rewrite Hx.
    replace (before ++ (x' ++ nl :: importStatement) ++ after)
      with ((before ++ x' ++ [nl]) ++ importStatement ++ after)
      by (rewrite <- !app_assoc; reflexivity).
    apply includes_app.
Qed.

(** C5, the code at a module file whose last import is quoted in a comment
    above the imports: the new statement lands behind the comment, before
    the first import, not behind the last one. *)
Theorem addImportStatement_misplaces :
  match_all importRegex documented_module
  = ["import { B } from './b';" : str;
     "import { A } from './a';" : str;
     "import { B } from './b';" : str] /\
  addImportStatement documented_module create_user_import
  = "// Usage: import { B } from './b';" ++ NL
    ++ create_user_import ++ NL
    ++ "import { A } from './a';" ++ NL
    ++ "import { B } from './b';" ++ NL
    ++ NL
    ++ "@Module({ providers: [A, B] })" ++ NL
    ++ "export class AppModule {}" ++ NL
  /\
  addImportStatement documented_module create_user_import
  <> "// Usage: import { B } from './b';" ++ NL
     ++ "import { A } from './a';" ++ NL
     ++ "import { B } from './b';" ++ NL
     ++ create_user_import ++ NL
     ++ NL
     ++ "@Module({ providers: [A, B] })" ++ NL
     ++ "export class AppModule {}" ++ NL.
Proof.
  split; [reflexivity|]. split; [reflexivity|]. vm_compute. discriminate.
Qed.

End ImportFacts.

(** * The patch step: idempotence and the missing providers array *)
Module PatchFacts.
Import JS JSFacts SpecWords Samples ContentManipulator ProviderFacts ImportFacts.

Lemma has_dollar_app (a b : str) :
  has_dollar (a ++ b) = has_dollar a || has_dollar b.
Proof. apply existsb_app. Qed.

Section WithStrings.
Context `{Strings}.

(** After the registration insertion the content holds the import
    statement it held before, or the provider entry. *)
Lemma addProviderEntry_keeps_or_adds
  (content importStatement providerEntry name : str) :
  includes content importStatement = true ->
  includes (addProviderEntry content providerEntry name) importStatement = true
  \/ includes (addProviderEntry content providerEntry name) providerEntry = true.
Proof.
  intros Hinc. destruct (search providersRegex content) as [m|] eqn:Hs.
  - destruct (providers_found content m Hs)
      as (blanks & providers & Hsegs & _ & Hcontent).
    rewrite (addProviderEntry_found content providerEntry name m
               blanks providers Hs Hsegs).
    destruct (includes providers (classify name ++ "Handler")).
    + left. now rewrite <- Hcontent.
    + right. apply (includes_inside (f_before m) _ (f_after m)).
      rewrite !app_assoc. do 2 rewrite <- app_assoc. apply includes_app.
  - left. unfold addProviderEntry, replace_fn. now rewrite Hs.
Qed.

(** As long as the import statement carries no dollar, a second patch step
    with the same inputs changes nothing. *)
Lemma patched_twice_without_dollar
  (modulePath moduleContent name relativeImportPath : str) :
  has_dollar (classify name) = false ->
  has_dollar relativeImportPath = false ->
  ModuleUpdater.patched_twice modulePath moduleContent name relativeImportPath
  = ModuleUpdater.patched modulePath moduleContent name relativeImportPath.
Proof.
  intros Hname Hpath.
  unfold ModuleUpdater.patched_twice, ModuleUpdater.patched.
  destruct (ModuleUpdater.patchModuleContent modulePath moduleContent name
              relativeImportPath) as [[c|]|msg] eqn:E; [| |reflexivity].
  - unfold ModuleUpdater.patchModuleContent in E |- *.
    set (importStatement := "import { " ++ classify name ++ "Handler } from '"
                            ++ relativeImportPath ++ "';") in *.
    set (providerEntry := "    " ++ classify name ++ "Handler,") in *.
    destruct (includes moduleContent importStatement
              || includes moduleContent providerEntry); [discriminate|].
    destruct (negb (test ModuleUpdater.providersTest
                      (addImportStatement moduleContent importStatement)));
      [discriminate|].
    injection E as <-.
    assert (Hplain : has_dollar importStatement = false).
    { unfold importStatement. rewrite !has_dollar_app, Hname, Hpath.
      reflexivity. }
    destruct (addProviderEntry_keeps_or_adds
                (addImportStatement moduleContent importStatement)
                importStatement providerEntry name
                (addImportStatement_includes _ _ Hplain)) as [-> | ->];
      [reflexivity|now rewrite orb_true_r].
  - now rewrite E.
Qed.
End WithStrings.

(** The import path the generators compute for a target directory named by
    two dollars. *)
Lemma dollar_path :
  PathUtilities.calculateRelativeImportPath
    "src/app.module.ts" "src/$$/" "foo" false
  = "./$$/handlers/foo.handler".
Proof. reflexivity. Qed.

(** C1, the code at a module file that registers [FooHandler] on one line
    and imports it from elsewhere, for a target directory named by two
    dollars: the first patch step adds the import with one dollar, the
    guard of the second does not find the statement it looks for, and a
    second import is added. *)
Theorem patched_twice_differs :
  @ModuleUpdater.patched Devkit.strings
     "src/app.module.ts" barrel_module "foo" "./$$/handlers/foo.handler"
  = Ok ("import { Module } from '@nestjs/common';" ++ NL
        ++ "import { FooHandler } from './handlers';" ++ NL
        ++ "import { FooHandler } from './$/handlers/foo.handler';" ++ NL
        ++ NL
        ++ "@Module({ providers: [FooHandler] })" ++ NL
        ++ "export class AppModule {}" ++ NL)
  /\
  @ModuleUpdater.patched_twice Devkit.strings
     "src/app.module.ts" barrel_module "foo" "./$$/handlers/foo.handler"
  = Ok ("import { Module } from '@nestjs/common';" ++ NL
        ++ "import { FooHandler } from './handlers';" ++ NL
        ++ "import { FooHandler } from './$/handlers/foo.handler';" ++ NL
        ++ "import { FooHandler } from './$/handlers/foo.handler';" ++ NL
        ++ NL
        ++ "@Module({ providers: [FooHandler] })" ++ NL
        ++ "export class AppModule {}" ++ NL)
  /\
  @ModuleUpdater.patched_twice Devkit.strings
     "src/app.module.ts" barrel_module "foo" "./$$/handlers/foo.handler"
  <> @ModuleUpdater.patched Devkit.strings
       "src/app.module.ts" barrel_module "foo" "./$$/handlers/foo.handler".
Proof.
  split; [reflexivity|]. split; [reflexivity|]. vm_compute. discriminate.
Qed.

(** The check of [module-updater.ts]: a content in which, the import added,
    the test pattern is not found raises the error. *)
Lemma patchModuleContent_without_providers `{Strings}
  (modulePath moduleContent name relativeImportPath : str) :
  let importStatement : str :=
    "import { " ++ classify name ++ "Handler } from '"
    ++ relativeImportPath ++ "';" in
  includes moduleContent importStatement = false ->
  includes moduleContent ("    " ++ classify name ++ "Handler,") = false ->
  test ModuleUpdater.providersTest
    (addImportStatement moduleContent importStatement) = false ->
  ModuleUpdater.patchModuleContent modulePath moduleContent name
    relativeImportPath
  = Throw ("No providers array found in " ++ modulePath).
Proof.
  cbv zeta. intros H1 H2 H3. unfold ModuleUpdater.patchModuleContent.
  now rewrite H1, H2, H3.
Qed.

(** The step of [command.ts] and of [helpers/index.ts] has no such check:
    a content in which the pattern of the registration insertion is not
    found is written back with the import added and nothing else. *)
Lemma command_patch_without_providers `{Strings}
  (moduleContent name relativeImportPath : str) :
  let importStatement : str :=
    "import { " ++ classify name ++ "Handler } from '"
    ++ relativeImportPath ++ "';" in
  includes moduleContent importStatement = false ->
  includes moduleContent (classify name ++ "Handler") = false ->
  search providersRegex (addImportStatement moduleContent importStatement)
    = None ->
  Command.patchModuleContent moduleContent name relativeImportPath
  = Some (addImportStatement moduleContent importStatement).
Proof.
  cbv zeta. intros H1 H2 H3. unfold Command.patchModuleContent.
  rewrite H1, H2. cbn [orb]. unfold addProviderEntry, replace_fn.
  now rewrite H3.
Qed.

(** C3, the code at a module file without a providers array: the command
    pipeline and the query pipeline both write the file back with the
    import added and return normally; only [module-updater.ts] raises the
    error. *)
Theorem update_without_providers_is_silent :
  test ModuleUpdater.providersTest bare_module = false /\
  @Command.updateModuleFile MemTree.t MemTree.tree Devkit.strings
     "create-user" "src/" false [("app.module.ts" : str, bare_module)]
  = ([("app.module.ts" : str,
       "import { Module } from '@nestjs/common';" ++ NL
       ++ "import { CreateUserHandler } from './src/handlers/create-user.handler';"
       ++ NL ++ NL
       ++ "@Module({})" ++ NL
       ++ "export class AppModule {}" ++ NL)],
     Ok tt)
  /\
  @Helpers.updateModuleFile MemTree.t MemTree.tree Devkit.strings
     "get-user" "src/" false [("app.module.ts" : str, bare_module)]
  = ([("app.module.ts" : str,
       "import { Module } from '@nestjs/common';" ++ NL
       ++ "import { GetUserHandler } from './src/handlers/get-user.handler';"
       ++ NL ++ NL
       ++ "@Module({})" ++ NL
       ++ "export class AppModule {}" ++ NL)],
     Ok tt)
  /\
  @ModuleUpdater.updateModuleFile MemTree.t MemTree.tree Devkit.strings
     "create-user" "src/" false [("app.module.ts" : str, bare_module)]
  = ([("app.module.ts" : str, bare_module)],
     Throw
       "Failed to update module file: No providers array found in app.module.ts").
Proof. repeat split. Qed.

End PatchFacts.

(** * The in-memory tree *)
Module MemTreeFacts.
Import JS JSFacts MemTree.

Lemma str_eqb_sym (a b : str) : str_eqb a b = str_eqb b a.
Proof.
  destruct (str_eqb a b) eqn:E; symmetry.
  - apply str_eqb_eq in E. subst. apply str_eqb_refl.
  - apply str_eqb_neq. apply str_eqb_neq in E. congruence.
Qed.

Lemma exists_app (tree : t) (path content q : str) :
  exists_ (tree ++ [(path, content)]) q = exists_ tree q || str_eqb path q.
Proof.
  unfold exists_. rewrite existsb_app. simpl. now rewrite orb_false_r.
Qed.

Lemma lookup_app (tree : t) (path content q : str) :
  lookup (tree ++ [(path, content)]) q =
  match lookup tree q with
  | Some c => Some c
  | None => if str_eqb path q then Some content else None
  end.
Proof.
  unfold lookup. induction tree as [|f tree IH]; simpl.
  - now destruct (str_eqb path q).
  - destruct (str_eqb (fst f) q); [reflexivity|exact IH].
Qed.

Lemma lookup_none (tree : t) (q : str) :
  exists_ tree q = false -> lookup tree q = None.
Proof.
  unfold exists_, lookup. induction tree as [|f tree IH]; simpl; [reflexivity|].
  destruct (str_eqb (fst f) q); [discriminate|exact IH].
Qed.

Lemma create_absent (tree : t) (path content : str) :
  exists_ tree path = false ->
  create tree path content = Ok (tree ++ [(path, content)]).
Proof. unfold create. now intros ->. Qed.

Lemma overwrite_exists (tree tree' : t) (path content q : str) :
  overwrite tree path content = Ok tree' -> exists_ tree' q = exists_ tree q.
Proof.
  unfold overwrite. destruct (exists_ tree path); [|discriminate].
  intros [= <-]. unfold exists_. induction tree as [|f tree IH]; [reflexivity|].
  simpl. rewrite IH. f_equal.
  destruct (str_eqb (fst f) path) eqn:E; [|reflexivity].
  apply str_eqb_eq in E. now rewrite E.
Qed.

Lemma overwrite_lookup_other (tree tree' : t) (path content q : str) :
  overwrite tree path content = Ok tree' -> q <> path ->
  lookup tree' q = lookup tree q.
Proof.
  unfold overwrite. destruct (exists_ tree path); [|discriminate].
  intros [= <-] Hq. unfold lookup.
  induction tree as [|f tree IH]; [reflexivity|]. simpl.
  destruct (str_eqb (fst f) path) eqn:E.
  - apply str_eqb_eq in E. simpl. rewrite E.
    assert (Hn : str_eqb path q = false) by (apply str_eqb_neq; congruence).
    rewrite Hn. exact IH.
  - destruct (str_eqb (fst f) q); [reflexivity|exact IH].
Qed.

(** A path with a slash in it is not an entry of the root directory. *)
Lemma subfiles_root_app (tree : t) (path content : str) :
  includes path "/" = true ->
  subfiles (tree ++ [(path, content)]) [] = subfiles tree [].
Proof.
  intros Hp. induction tree as [|f tree IH]; cbn [app subfiles].
  - unfold entry_in. cbn [strip_prefix fst]. now rewrite Hp.
  - now rewrite IH.
Qed.

Lemma subfiles_root_in (tree : t) (file : str) :
  In file (subfiles tree []) -> includes file "/" = false.
Proof.
  induction tree as [|f tree IH]; cbn [subfiles]; [intros []|].
  unfold entry_in. cbn [strip_prefix].
  destruct (includes (fst f) "/") eqn:E; [exact IH|].
  intros [<-|Hin]; [exact E|now apply IH].
Qed.

End MemTreeFacts.

(** * src/command/command.ts: the files the generator creates *)
Module CommandFacts.
Import JS JSFacts SpecWords Samples OptionNormalizer MemTreeFacts Command.

#[local] Existing Instance MemTree.tree.
#[local] Existing Instance Devkit.strings.

(** The module update writes at most one file, and one that was found in
    the listing. *)
Lemma updateModuleFile_effect {T : Type} `{Tree T} `{Strings}
  (name normalizedPath : str) (flat : bool) (tree : T) :
  fst (updateModuleFile name normalizedPath flat tree) = tree \/
  exists modulePath content,
    ModuleUpdater.findModuleFile tree normalizedPath = Some modulePath /\
    overwrite tree modulePath content
    = Ok (fst (updateModuleFile name normalizedPath flat tree)).
Proof.
  unfold updateModuleFile, findModuleFile.
  destruct (ModuleUpdater.findModuleFile tree normalizedPath)
    as [[|c modulePath]|] eqn:Hfind; cbn [truthy_str]; try (now left).
  unfold rethrow, bind, tree_read.
  destruct (read tree (c :: modulePath)) as [[[|d content]|]|msg];
    cbn [truthy_str]; try (now left).
  destruct (patchModuleContent (d :: content) name
              (PathUtilities.calculateRelativeImportPath
                 (c :: modulePath) normalizedPath name flat))
    as [updated|]; [|now left].
  unfold tree_overwrite.
  destruct (overwrite tree (c :: modulePath) updated) as [tree'|msg] eqn:Hw;
    [|now left].
  right. exists (c :: modulePath), updated. split; [reflexivity|exact Hw].
Qed.

Lemma updateModuleFile_not_found {T : Type} `{Tree T} `{Strings}
  (name normalizedPath : str) (flat : bool) (tree : T) :
  ModuleUpdater.findModuleFile tree normalizedPath = None ->
  updateModuleFile name normalizedPath flat tree = (tree, Ok tt).
Proof. unfold updateModuleFile, findModuleFile. now intros ->. Qed.

(** A module file found from [src/] is an entry of the root directory. *)
Lemma findModuleFile_from_src (tree : MemTree.t) (modulePath : str) :
  ModuleUpdater.findModuleFile tree "src/" = Some modulePath ->
  includes modulePath "/" = false.
Proof.
  unfold ModuleUpdater.findModuleFile.
  change (PathUtilities.getParentPath "src/" 1) with ([] : str).
  cbn [getDir_subfiles MemTree.tree].
  destruct (filter (fun file => endsWith file ".module.ts") (MemTree.subfiles tree []))
    as [|first rest] eqn:Hf; [discriminate|].
  cbn [map app]. intros [= <-]. apply (subfiles_root_in tree).
  assert (Hin : In first (first :: rest)) by now left.
  rewrite <- Hf in Hin. now apply filter_In in Hin.
Qed.

Lemma findModuleFile_after_create (tree : MemTree.t) (path content : str) :
  includes path "/" = true ->
  ModuleUpdater.findModuleFile (tree ++ [(path, content)]) "src/"
  = ModuleUpdater.findModuleFile tree "src/".
Proof.
  intros Hp. unfold ModuleUpdater.findModuleFile.
  change (PathUtilities.getParentPath "src/" 1) with ([] : str).
  cbn [getDir_subfiles MemTree.tree]. now rewrite subfiles_root_app.
Qed.

(** The module update run from [src/] keeps the set of files and the
    content of every file below a directory. *)
Lemma update_from_src_keeps
  (tree : MemTree.t) (name : str) (flat : bool) (wrap : str -> str) :
  let after := fst (rethrow wrap (updateModuleFile name "src/" flat) tree) in
  (forall q, MemTree.exists_ after q = MemTree.exists_ tree q) /\
  (forall p, includes p "/" = true ->
             MemTree.lookup after p = MemTree.lookup tree p).
Proof.
  cbv zeta.
  assert (Hfst : fst (rethrow wrap (updateModuleFile name "src/" flat) tree)
                 = fst (updateModuleFile name "src/" flat tree)).
  { unfold rethrow.
    now destruct (updateModuleFile name "src/" flat tree) as [t' [a|msg]]. }
  rewrite Hfst.
  destruct (updateModuleFile_effect name "src/" flat tree)
    as [-> | (mp & content & Hmp & Hw)]; [now split|].
  cbn [overwrite MemTree.tree] in Hw. split.
  - intros q. exact (overwrite_exists _ _ _ _ q Hw).
  - intros p Hp. apply (overwrite_lookup_other _ _ _ _ p Hw).
    intros ->. apply findModuleFile_from_src in Hmp. congruence.
Qed.

(** Two creations below [src/] followed by the module update. *)
Lemma create_two_then_update
  (tree : MemTree.t) (p1 c1 p2 c2 name : str) (flat : bool)
  (wrap : str -> str) :
  includes p1 "/" = true -> includes p2 "/" = true -> p1 <> p2 ->
  MemTree.exists_ tree p1 = false -> MemTree.exists_ tree p2 = false ->
  let run :=
    rethrow wrap
      ((tree_create p1 c1 ;; tree_create p2 c2) ;;
       updateModuleFile name "src/" flat) tree in
  creates_exactly tree (fst run) p1 p2 /\
  MemTree.lookup (fst run) p1 = Some c1 /\
  MemTree.lookup (fst run) p2 = Some c2 /\
  (ModuleUpdater.findModuleFile tree "src/" = None -> snd run = Ok tt).
Proof.
  intros Hs1 Hs2 Hne Ha1 Ha2. cbv zeta.
  assert (Ha2' : MemTree.exists_ (tree ++ [(p1, c1)]) p2 = false).
  { rewrite exists_app, Ha2. apply str_eqb_neq in Hne. now rewrite Hne. }
  assert (Hrun : rethrow wrap
                   ((tree_create p1 c1 ;; tree_create p2 c2) ;;
                    updateModuleFile name "src/" flat) tree
                 = rethrow wrap (updateModuleFile name "src/" flat)
                     ((tree ++ [(p1, c1)]) ++ [(p2, c2)])).
  { unfold rethrow, bind, tree_create. cbn [create MemTree.tree].
    rewrite (create_absent tree p1 c1 Ha1).
    now rewrite (create_absent (tree ++ [(p1, c1)]) p2 c2 Ha2'). }
  rewrite Hrun. clear Hrun.
  destruct (update_from_src_keeps ((tree ++ [(p1, c1)]) ++ [(p2, c2)])
              name flat wrap) as [Hex Hlook].
  split; [|split; [|split]].
  - intros q. etransitivity; [exact (Hex q)|]. now rewrite !exists_app.
  - etransitivity; [exact (Hlook p1 Hs1)|].
    rewrite !lookup_app, (lookup_none tree p1 Ha1).
    now rewrite str_eqb_refl.
  - etransitivity; [exact (Hlook p2 Hs2)|].
    rewrite lookup_app, (lookup_none _ p2 Ha2').
    now rewrite str_eqb_refl.
  - intros Hnone. unfold rethrow.
    rewrite (updateModuleFile_not_found name "src/" flat); [reflexivity|].
    now rewrite !findModuleFile_after_create.
Qed.

(** What [command] does for [create user], the constant parts computed. *)
Lemma normalize_create_user (flat : option bool) :
  normalizeOptions (create_user_options flat)
  = {| norm_name := "create-user"; normalizedPath := "src/";
       norm_skipImport := false;
       norm_flat := match flat with Some true => true | _ => false end |}.
Proof. reflexivity. Qed.

Lemma command_create_user_structured (tree : MemTree.t) :
  Scenario.run None tree
  = rethrow (fun message => "Failed to generate command: " ++ error_text message)
      ((tree_create "src/impl/create-user.command.ts"
          (Template.processTemplate TEMPLATES_COMMAND "create-user") ;;
        tree_create "src/handlers/create-user.handler.ts"
          (Template.processTemplate
             (replace_str TEMPLATES_HANDLER "<%= importPath %>"
                "../impl/create-user.command") "create-user")) ;;
       updateModuleFile "create-user" "src/" false) tree.
Proof.
  unfold Scenario.run, command. cbv zeta. rewrite !normalize_create_user.
  reflexivity.
Qed.

Lemma command_create_user_flat (tree : MemTree.t) :
  Scenario.run (Some true) tree
  = rethrow (fun message => "Failed to generate command: " ++ error_text message)
      ((tree_create "src/create-user.command.ts"
          (Template.processTemplate TEMPLATES_COMMAND "create-user") ;;
        tree_create "src/create-user.handler.ts"
          (Template.processTemplate
             (replace_str TEMPLATES_HANDLER "<%= importPath %>"
                "./create-user.command") "create-user")) ;;
       updateModuleFile "create-user" "src/" true) tree.
Proof.
  unfold Scenario.run, command. cbv zeta. rewrite !normalize_create_user.
  reflexivity.
Qed.

(** C8.  For the identifier [create user] and no other option, on a tree
    that has neither file yet, the command generator creates
    [src/impl/create-user.command.ts] and
    [src/handlers/create-user.handler.ts] and no other file, and the
    handler file imports the command class from
    [../impl/create-user.command]; with [flat] set, the two files are
    [src/create-user.command.ts] and [src/create-user.handler.ts] and the
    import is from [./create-user.command].  When no module file is found
    the run ends normally. *)
Theorem command_creates_the_two_files (tree : MemTree.t) :
  (MemTree.exists_ tree "src/impl/create-user.command.ts" = false ->
   MemTree.exists_ tree "src/handlers/create-user.handler.ts" = false ->
   Scenario.holds None
     "src/impl/create-user.command.ts" "src/handlers/create-user.handler.ts"
     "../impl/create-user.command" tree) /\
  (MemTree.exists_ tree "src/create-user.command.ts" = false ->
   MemTree.exists_ tree "src/create-user.handler.ts" = false ->
   Scenario.holds (Some true)
     "src/create-user.command.ts" "src/create-user.handler.ts"
     "./create-user.command" tree).
Proof.
  split; intros Ha1 Ha2; unfold Scenario.holds.
  - rewrite command_create_user_structured.
    destruct (create_two_then_update tree
                "src/impl/create-user.command.ts"
                (Template.processTemplate TEMPLATES_COMMAND "create-user")
                "src/handlers/create-user.handler.ts"
                (Template.processTemplate
                   (replace_str TEMPLATES_HANDLER "<%= importPath %>"
                      "../impl/create-user.command") "create-user")
                "create-user" false
                (fun message =>
                   "Failed to generate command: " ++ error_text message)
                eq_refl eq_refl ltac:(discriminate) Ha1 Ha2)
      as (Hex & Hl1 & Hl2 & Hok).
    split; [exact Hex|]. split; [|split; [|exact Hok]].
    + eexists. split; [exact Hl1|]. vm_compute. reflexivity.
    + eexists. split; [exact Hl2|]. vm_compute. reflexivity.
  - rewrite command_create_user_flat.
    destruct (create_two_then_update tree
                "src/create-user.command.ts"
                (Template.processTemplate TEMPLATES_COMMAND "create-user")
                "src/create-user.handler.ts"
                (Template.processTemplate
                   (replace_str TEMPLATES_HANDLER "<%= importPath %>"
                      "./create-user.command") "create-user")
                "create-user" true
                (fun message =>
                   "Failed to generate command: " ++ error_text message)
                eq_refl eq_refl ltac:(discriminate) Ha1 Ha2)
      as (Hex & Hl1 & Hl2 & Hok).
    split; [exact Hex|]. split; [|split; [|exact Hok]].
    + eexists. split; [exact Hl1|]. vm_compute. reflexivity.
    + eexists. split; [exact Hl2|]. vm_compute. reflexivity.
Qed.

(** Both scenarios on a tree that holds [package.json] only. *)
Lemma command_creates_the_two_files_witness :
  Scenario.holds None
    "src/impl/create-user.command.ts" "src/handlers/create-user.handler.ts"
    "../impl/create-user.command"
    [("package.json" : str, "{}" : str)]
  /\
  Scenario.holds (Some true)
    "src/create-user.command.ts" "src/create-user.handler.ts"
    "./create-user.command"
    [("package.json" : str, "{}" : str)].
Proof.
  split.
  - apply (proj1 (command_creates_the_two_files
                    [("package.json" : str, "{}" : str)])); reflexivity.
  - apply (proj2 (command_creates_the_two_files
                    [("package.json" : str, "{}" : str)])); reflexivity.
Defined.

End CommandFacts.

(** * src/utils/path-utilities.ts: parents and the import path of the
    pipeline *)
Module ParentFacts.
Import JS JSFacts PathUtilities SpecWords PathFacts.

Lemma pop_levels_firstn (levels : nat) (parts : list str) :
  pop_levels levels parts = firstn (List.length parts - levels) parts.
Proof.
  revert parts. induction levels as [|n IH]; intros parts.
  - simpl. now rewrite Nat.sub_0_r, firstn_all.
  - destruct parts as [|x parts]; [reflexivity|].
    cbn [pop_levels]. rewrite IH, removelast_firstn_len, firstn_firstn.
    rewrite length_firstn. f_equal. simpl List.length. lia.
Qed.

Lemma segments_directory_text (parts : list str) :
  Forall segment parts -> segments (directory_text parts) = parts.
Proof.
  intros Hp. destruct parts as [|x parts]; [reflexivity|].
  unfold directory_text.
  change (join "/" (x :: parts) ++ "/")
    with (join "/" (x :: parts) ++ "/"%char :: []).
  rewrite segments_app_slash, (segments_join _ Hp). cbn. now rewrite app_nil_r.
Qed.

Lemma Forall_firstn_segments (n : nat) (p : str) :
  Forall segment (firstn n (segments p)).
Proof.
  pose proof (segments_are_segments p) as Hall. revert n.
  induction Hall as [|x l Hx _ IH]; intros [|n]; simpl; constructor; auto.
Qed.

Lemma getParentPath_firstn (path : str) (levels : nat) :
  getParentPath path levels
  = directory_text
      (firstn (List.length (segments path) - levels) (segments path)).
Proof.
  unfold getParentPath. rewrite segments_strip_trailing_slash.
  rewrite pop_levels_firstn. reflexivity.
Qed.

Lemma segments_getParentPath (path : str) (levels : nat) :
  segments (getParentPath path levels)
  = firstn (List.length (segments path) - levels) (segments path).
Proof.
  rewrite getParentPath_firstn.
  apply segments_directory_text, Forall_firstn_segments.
Qed.

(** X1.  [getParentPath] keeps all but the last [levels] segments of the
    path (none when there are not that many) and writes them with a slash
    behind each: the result is empty or ends in a slash, and empty
    segments of the path (doubled, leading or trailing slashes) are
    gone. *)
Theorem getParentPath_drops_levels (path : str) (levels : nat) :
  getParentPath path levels
  = directory_text
      (firstn (List.length (segments path) - levels) (segments path)) /\
  (getParentPath path levels = [] \/
   endsWith (getParentPath path levels) "/" = true) /\
  segments (getParentPath path levels)
  = firstn (List.length (segments path) - levels) (segments path).
Proof.
  split; [apply getParentPath_firstn|].
  split; [|apply segments_getParentPath].
  rewrite getParentPath_firstn.
  destruct (firstn _ (segments path)) as [|x parts]; [now left|].
  right. apply (endsWith_app (join "/" (x :: parts)) "/").
Qed.

(** X2.  Going up [a] levels and then [b] levels is going up [a + b]
    levels. *)
Theorem getParentPath_twice (path : str) (a b : nat) :
  getParentPath (getParentPath path a) b = getParentPath path (a + b).
Proof.
  rewrite (getParentPath_firstn (getParentPath path a) b).
  rewrite segments_getParentPath, (getParentPath_firstn path (a + b)).
  f_equal. rewrite firstn_firstn, length_firstn. f_equal. lia.
Qed.

(** X3.  [getRelativePath] reads its arguments through their segments
    only: two source directories with the same segments and two targets
    with the same segments give the same path, so doubled, leading and
    trailing slashes do not matter. *)
Theorem getRelativePath_segments_only (from from' to to' : str) :
  segments from = segments from' -> segments to = segments to' ->
  getRelativePath from to = getRelativePath from' to'.
Proof.
  intros Hf Ht. unfold getRelativePath.
  rewrite !segments_strip_trailing_slash.
  change (filter nonempty (split "/" to)) with (segments to).
  change (filter nonempty (split "/" to')) with (segments to').
  now rewrite Hf, Ht.
Qed.

Lemma getRelativePath_segments_only_witness :
  segments "/a//b/" = segments "a/b" /\
  getRelativePath "/a//b/" "a/c//d" = getRelativePath "a/b" "/a/c/d".
Proof.
  split; [reflexivity|].
  apply getRelativePath_segments_only; reflexivity.
Defined.

Lemma lastIndexOf_slash_free (file : str) :
  slash_free file -> lastIndexOf "/" file = None.
Proof.
  unfold slash_free, sep_free. induction file as [|c file IH]; [reflexivity|].
  cbn [forallb lastIndexOf]. intros Hf. apply andb_prop in Hf as [Hc Hf].
  rewrite (IH Hf). apply negb_true_iff in Hc. now rewrite Hc.
Qed.

Lemma lastIndexOf_app_slash_free (x file : str) :
  slash_free file -> lastIndexOf "/" (x ++ file) = lastIndexOf "/" x.
Proof.
  intros Hf. induction x as [|c x IH]; cbn [app lastIndexOf].
  - rewrite (lastIndexOf_slash_free file Hf). reflexivity.
  - now rewrite IH.
Qed.

Lemma lastIndexOf_final_slash (y : str) :
  lastIndexOf "/" (y ++ ["/"%char]) = Some (List.length y).
Proof.
  induction y as [|c y IH]; [reflexivity|].
  cbn [app lastIndexOf List.length]. now rewrite IH.
Qed.

Lemma firstn_length_app {A : Type} (l r : list A) :
  firstn (List.length l) (l ++ r) = l.
Proof. induction l as [|x l IH]; simpl; [now destruct r|now rewrite IH]. Qed.

(** The directory of a module file that stands in [parts]. *)
Lemma module_directory (parts : list str) (file : str) :
  slash_free file ->
  firstn (match lastIndexOf "/" (directory_text parts ++ file) with
          | Some i => i + 1
          | None => 0
          end) (directory_text parts ++ file)
  = directory_text parts.
Proof.
  intros Hf. rewrite (lastIndexOf_app_slash_free _ file Hf).
  destruct parts as [|x parts]; [reflexivity|].
  unfold directory_text.
  change (join "/" (x :: parts) ++ "/")
    with (join "/" (x :: parts) ++ ["/"%char]).
  rewrite lastIndexOf_final_slash.
  replace (List.length (join "/" (x :: parts)) + 1)
    with (List.length (join "/" (x :: parts) ++ ["/"%char]))
    by (rewrite length_app; reflexivity).
  apply firstn_length_app.
Qed.

Lemma segments_behind_directory (dir tail : str) :
  endsWith dir "/" = true ->
  segments (dir ++ tail) = segments dir ++ segments tail.
Proof.
  intros Hd. apply endsWith_true in Hd as [r ->].
  change (r ++ "/") with (r ++ ["/"%char]).
  rewrite <- app_assoc. cbn [app].
  rewrite !segments_app_slash. cbn. now rewrite app_nil_r.
Qed.

Lemma slash_free_app (a b : str) :
  slash_free a -> slash_free b -> slash_free (a ++ b).
Proof.
  unfold slash_free, sep_free. intros Ha Hb. now rewrite forallb_app, Ha, Hb.
Qed.

Lemma not_climbing (d x : str) :
  segment d -> d <> ".." -> startsWith (d ++ "/"%char :: x) "../" = false.
Proof.
  intros [Hne Hfree] Hd.
  destruct (startsWith (d ++ "/"%char :: x) "../") eqn:E; [|reflexivity].
  apply startsWith_true in E as [r E].
  destruct d as [|c1 [|c2 [|c3 d]]]; cbn in E.
  - contradiction.
  - discriminate E.
  - injection E as -> -> _. contradiction.
  - injection E as -> -> -> _. vm_compute in Hfree. discriminate Hfree.
Qed.

(** X4.  In the generators the module file stands one level above the
    target directory, so the import path never climbs: for a target
    directory that ends in a slash and whose last segment is [d], it is
    [./d/handlers/name.handler], or [./d/name.handler] in the flat layout,
    and resolved against the module file's directory it is the handler
    file. *)
Theorem import_path_goes_down
  (normalizedPath file name : str) (flat : bool)
  (parent : list str) (d : str) :
  segments normalizedPath = parent ++ [d] ->
  endsWith normalizedPath "/" = true ->
  slash_free file -> slash_free name -> d <> ".." ->
  let modulePath := getParentPath normalizedPath 1 ++ file in
  let tail : str :=
    if flat then name ++ ".handler" else "handlers/" ++ name ++ ".handler" in
  calculateRelativeImportPath modulePath normalizedPath name flat
    = "./" ++ d ++ "/" ++ tail /\
  resolve (getParentPath normalizedPath 1)
    (calculateRelativeImportPath modulePath normalizedPath name flat)
    = normalize (normalizedPath ++ tail).
Proof.
  intros Hsegs Hdir Hfile Hname Hd. cbv zeta.
  pose proof (segments_are_segments normalizedPath) as Hall.
  rewrite Hsegs in Hall. apply Forall_app in Hall as [Hparent Hdseg].
  inversion Hdseg as [|? ? Hdsegment _]; subst.
  assert (Hup : getParentPath normalizedPath 1 = directory_text parent).
  { rewrite getParentPath_one_level, Hsegs. now rewrite removelast_last. }
  set (tail := if flat then name ++ ".handler"
               else "handlers/" ++ name ++ ".handler").
  assert (Hhandler : segment (name ++ ".handler")).
  { split; [now destruct name|]. now apply slash_free_app. }
  assert (Htail : exists ts, segments tail = ts /\ Forall segment ts /\
                             join "/" (d :: ts) = d ++ "/" ++ tail).
  { unfold tail. destruct flat.
    - exists [name ++ ".handler"]. split; [now apply segments_segment|].
      split; [now constructor|reflexivity].
    - exists ["handlers" : str; name ++ ".handler"]. split.
      + change ("handlers/" ++ name ++ ".handler")
          with ("handlers" ++ "/"%char :: (name ++ ".handler")).
        rewrite segments_app_slash, (segments_segment _ Hhandler).
        reflexivity.
      + split; [|reflexivity].
        constructor; [split; [discriminate|reflexivity]|now constructor]. }
  destruct Htail as (ts & Hts & Htsseg & Hjoin).
  assert (Hpath : calculateRelativeImportPath
                    (getParentPath normalizedPath 1 ++ file)
                    normalizedPath name flat
                  = getRelativePath (directory_text parent)
                      (normalizedPath ++ tail)).
  { unfold calculateRelativeImportPath. rewrite Hup.
    rewrite (module_directory parent file Hfile). unfold tail.
    destruct flat; reflexivity. }
  assert (Hdiv : diverge_after (segments (directory_text parent))
                   (segments (normalizedPath ++ tail))
                   parent [] (d :: ts)).
  { rewrite (segments_directory_text parent Hparent).
    rewrite (segments_behind_directory _ _ Hdir), Hsegs, Hts.
    repeat split; [now rewrite app_nil_r|now rewrite <- app_assoc]. }
  rewrite Hpath, Hup. split.
  - rewrite (getRelativePath_formula _ _ _ _ _ Hdiv).
    change (climb [] (d :: ts)) with (join "/" (d :: ts)). rewrite Hjoin.
    change (d ++ "/" ++ tail) with (d ++ "/"%char :: tail).
    now rewrite (not_climbing d tail Hdsegment Hd).
  - apply (getRelativePath_resolves _ _ _ _ _ Hdiv). constructor.
Qed.

Lemma import_path_goes_down_witness :
  calculateRelativeImportPath
    (getParentPath "src/app/users/" 1 ++ "app.module.ts")
    "src/app/users/" "get-user" false
  = "./users/handlers/get-user.handler".
Proof.
  apply (import_path_goes_down "src/app/users/" "app.module.ts" "get-user"
           false ["src" : str; "app" : str] "users");
    try reflexivity. discriminate.
Defined.

End ParentFacts.

(** * src/utils/template.ts: what [processTemplate] replaces *)
Module TemplateFacts.
Import JS JSFacts SpecWords Template.

(** A pattern that starts with a literal is found only in a text that holds
    the literal. *)
Lemma search_needs_literal (l : str) (r : list atom) (s : str) (m : found) :
  search (Lit l :: r) s = Some m -> includes s l = true.
Proof.
  intros Hs. apply search_sound in Hs as [Hc Hsegs]. unfold f_match in Hc.
  destruct (f_segs m) as [|seg segs]; [inversion Hsegs|].
  apply Forall2_cons_iff in Hsegs as [Hseg _]. simpl in Hseg.
  rewrite Hc, Hseg. cbn [List.concat]. rewrite <- app_assoc.
  apply includes_app.
Qed.

(** ... and it is not found before the first character the literal starts
    with. *)
Lemma search_behind (c : ascii) (l : str) (r : list atom)
  (pre rest : str) (segs : list str) (after : str) :
  sep_free c pre ->
  matchAt (Lit (c :: l) :: r) rest = Some (segs, after) ->
  search (Lit (c :: l) :: r) (pre ++ rest) = Some (Found pre segs after).
Proof.
  unfold sep_free. intros Hpre Hm.
  induction pre as [|x pre IH].
  - destruct rest; cbn [app search]; now rewrite Hm.
  - cbn [forallb] in Hpre. apply andb_prop in Hpre as [Hx Hpre].
    apply negb_true_iff in Hx. rewrite Ascii.eqb_sym in Hx.
    cbn [app search]. cbn [matchAt strip_prefix]. rewrite Hx.
    now rewrite (IH Hpre).
Qed.

Lemma plus_takes_the_run (c : ascii -> bool) (r : list atom)
  (w rest : str) (segs : list str) (after : str) :
  w <> [] -> forallb c w = true ->
  match rest with x :: _ => c x = false | [] => True end ->
  matchAt r rest = Some (segs, after) ->
  matchAt (Plus c :: r) (w ++ rest) = Some (w :: segs, after).
Proof.
  intros Hne Hw Hrest Hk. destruct w as [|x w]; [contradiction|].
  cbn [forallb] in Hw. apply andb_prop in Hw as [Hx Hw].
  cbn [app matchAt]. rewrite Hx.
  now rewrite (star_takes_the_run c (matchAt r) w rest segs after Hw Hrest Hk).
Qed.

(** A token at the head of a text is matched whole. *)
Lemma token_at_head (fn arg post : str) :
  fn <> [] -> arg <> [] ->
  forallb cls_word fn = true -> forallb cls_word arg = true ->
  matchAt token ("<%= " ++ fn ++ "(" ++ arg ++ ") %>" ++ post)
  = Some (["<%= " : str; fn; "(" : str; arg; ") %>" : str], post).
Proof.
  intros Hfn Harg Hwf Hwa. unfold token.
  change (matchAt (Lit "<%= " :: ?r) ("<%= " ++ ?s))
    with (seg_cons "<%= " (matchAt r s)).
  assert (Hinner : matchAt [Lit "("; Plus cls_word; Lit ") %>"]
                     ("(" ++ arg ++ ") %>" ++ post)
                   = Some (["(" : str; arg; ") %>" : str], post)).
  { change (matchAt (Lit "(" :: ?r) ("(" ++ ?s))
      with (seg_cons "(" (matchAt r s)).
    rewrite (plus_takes_the_run cls_word [Lit ") %>"] arg (") %>" ++ post)
               [") %>" : str] post Harg Hwa); [reflexivity|reflexivity|].
    change (matchAt [Lit ") %>"] (") %>" ++ post))
      with (seg_cons ") %>" (matchAt [] post)).
    reflexivity. }
  rewrite (plus_takes_the_run cls_word _ fn ("(" ++ arg ++ ") %>" ++ post)
             _ post Hfn Hwf eq_refl Hinner).
  reflexivity.
Qed.

Section WithStrings.
Context `{Strings}.

(** X5.  A template that does not hold the opening [<%= ] of a token is
    returned as it is. *)
Theorem processTemplate_without_token (template name : str) :
  includes template "<%= " = false ->
  processTemplate template name = template.
Proof.
  intros Hno. unfold processTemplate, replace_all_fn. cbn [replace_all_from].
  destruct (search token template) as [m|] eqn:Hs; [|reflexivity].
  apply search_needs_literal in Hs. congruence.
Qed.

(** X6.  The first token of a template: what stands before it is kept,
    [classify(name)], [dasherize(name)] and [camelize(name)] are replaced
    by the name in that form, any other token of the shape [fn(arg)] is
    left as it is, and the rest of the template is processed in the same
    way. *)
Theorem processTemplate_first_token (pre fn arg post name : str) :
  sep_free "<" pre ->
  fn <> [] -> arg <> [] ->
  forallb cls_word fn = true -> forallb cls_word arg = true ->
  processTemplate (pre ++ "<%= " ++ fn ++ "(" ++ arg ++ ") %>" ++ post) name
  = pre
    ++ (if str_eqb arg "name" then
          if str_eqb fn "classify" then classify name
          else if str_eqb fn "dasherize" then dasherize name
          else if str_eqb fn "camelize" then camelize name
          else "<%= " ++ fn ++ "(" ++ arg ++ ") %>"
        else "<%= " ++ fn ++ "(" ++ arg ++ ") %>")
    ++ processTemplate post name.
Proof.
  intros Hpre Hfn Harg Hwf Hwa.
  unfold processTemplate, replace_all_fn.
  set (render := fun m : found =>
         match f_segs m with
         | [_; fn0; _; arg0; _] =>
             if str_eqb fn0 "classify" && str_eqb arg0 "name"
             then classify name
             else if str_eqb fn0 "dasherize" && str_eqb arg0 "name"
             then dasherize name
             else if str_eqb fn0 "camelize" && str_eqb arg0 "name"
             then camelize name
             else f_match m
         | _ => f_match m
         end).
  set (tok := "<%= " ++ fn ++ "(" ++ arg ++ ") %>" ++ post).
  cbn [replace_all_from].
  assert (Hs : search token (pre ++ tok)
               = Some (Found pre ["<%= " : str; fn; "(" : str; arg;
                                  ") %>" : str] post)).
  { apply (search_behind "<" "%= " _ pre tok); [exact Hpre|].
    now apply token_at_head. }
  rewrite Hs. cbn [f_before f_after].
  set (m := Found pre ["<%= " : str; fn; "(" : str; arg; ") %>" : str] post).
  assert (Hm : f_match m = "<%= " ++ fn ++ "(" ++ arg ++ ") %>")
    by (unfold f_match, m; cbn [f_segs List.concat]; now rewrite app_nil_r).
  assert (Hr : render m
               = if str_eqb arg "name" then
                   if str_eqb fn "classify" then classify name
                   else if str_eqb fn "dasherize" then dasherize name
                   else if str_eqb fn "camelize" then camelize name
                   else "<%= " ++ fn ++ "(" ++ arg ++ ") %>"
                 else "<%= " ++ fn ++ "(" ++ arg ++ ") %>").
  { unfold render. rewrite Hm. unfold m. cbn [f_segs].
    destruct (str_eqb arg "name"); rewrite ?andb_false_r, ?andb_true_r;
      reflexivity. }
  rewrite Hr, Hm. cbn [app lit list_ascii_of_string]. do 2 f_equal.
  change (replace_all_from (List.length (pre ++ tok)) token render post
          = replace_all_from (S (List.length post)) token render post).
  apply replace_all_from_fuel; [|lia].
  unfold tok. rewrite !length_app. simpl. lia.
Qed.
End WithStrings.

Lemma processTemplate_first_token_witness :
  @processTemplate Devkit.strings
    ("export class " ++ "<%= " ++ "classify" ++ "(" ++ "name" ++ ") %>"
     ++ "Query {}") "get-user"
  = "export class " ++ "GetUser"
    ++ @processTemplate Devkit.strings "Query {}" "get-user".
Proof.
  apply (@processTemplate_first_token Devkit.strings
           "export class " "classify" "name" "Query {}" "get-user");
    try reflexivity; discriminate.
Defined.

Lemma processTemplate_without_token_witness :
  @processTemplate Devkit.strings "export class X<T> {}" "get-user"
  = "export class X<T> {}".
Proof. apply processTemplate_without_token. reflexivity. Defined.

End TemplateFacts.

(** * The patch step without dollars *)
Module AdditiveFacts.
Import JS JSFacts SpecWords ContentManipulator ProviderFacts ImportFacts
       PatchFacts.



Lemma expand_keeps_plain_prefix (matched before after p q : str) :
  has_dollar p = false ->
  expand matched before after (p ++ q) = p ++ expand matched before after q.
Proof.
  unfold has_dollar. induction p as [|c p IH]; [reflexivity|].
  cbn [existsb app expand]. rewrite Ascii.eqb_sym.
  destruct (Ascii.eqb c "$"); [discriminate|].
  intros Hp. now rewrite (IH Hp).
Qed.

Lemma expand_up_to_line_feed (matched before after tpl : str) (n : nat) :
  forall x : str, List.length x <= n ->
  exists x', expand matched before after (x ++ nl :: tpl)
             = x' ++ nl :: expand matched before after tpl.
Proof.
  induction n as [|n IH]; intros x Hn.
  - destruct x; [|simpl in Hn; lia]. exists []. reflexivity.
  - destruct x as [|c t]; [exists []; reflexivity|].
    cbn [app expand]. simpl in Hn.
    destruct (IH t ltac:(lia)) as [t1 Ht1].
    destruct (Ascii.eqb c "$").
    + destruct t as [|d t'].
      * exists [c]. reflexivity.
      * cbn [app]. simpl in Hn. destruct (IH t' ltac:(lia)) as [t2 Ht2].
        destruct (Ascii.eqb d "$");
          [exists ("$"%char :: t2); cbn [app]; now rewrite Ht2|].
        destruct (Ascii.eqb d "&");
          [exists (matched ++ t2); now rewrite Ht2, <- app_assoc|].
        destruct (Ascii.eqb d "`");
          [exists (before ++ t2); now rewrite Ht2, <- app_assoc|].
        destruct (Ascii.eqb d squote);
          [exists (after ++ t2); now rewrite Ht2, <- app_assoc|].
        exists (c :: t1). cbn [app] in *. now rewrite Ht1.
    + exists (c :: t1). cbn [app]. now rewrite Ht1.
Qed.

(** The part of a statement before its first dollar is in the content
    afterwards. *)
Lemma addImportStatement_includes_prefix (content p q : str) :
  has_dollar p = false ->
  includes (addImportStatement content (p ++ q)) p = true.
Proof.
  intros Hp.
  destruct (match_all importRegex content) as [|i0 imports] eqn:Hm.
  - rewrite (addImportStatement_prepends _ _ Hm).
    rewrite <- app_assoc. apply (includes_app p []).
  - destruct (addImportStatement_first_occurrence content (p ++ q))
      as (before & after & _ & ->); [rewrite Hm; discriminate|].
    set (lastImport := last (match_all importRegex content) []).
    destruct (expand_up_to_line_feed lastImport before after (p ++ q)
                (List.length lastImport) lastImport (le_n _)) as [x' Hx].
    change (lastImport ++ NL ++ p ++ q) with (lastImport ++ nl :: p ++ q).
    rewrite Hx, (expand_keeps_plain_prefix _ _ _ p q Hp).
    replace (before ++ (x' ++ nl :: p ++ expand lastImport before after q)
             ++ after)
      with ((before ++ x' ++ [nl]) ++ p
            ++ (expand lastImport before after q ++ after))
      by (rewrite <- !app_assoc; cbn [app]; rewrite <- ?app_assoc;
          reflexivity).
    apply includes_app.
Qed.

Section WithStrings.
Context `{Strings}.

(** X8.  The patch step of [command.ts]: once it has rewritten a module
    file, a second step for the same name returns early, whatever the
    import path, as long as the classified name holds no dollar. *)
Theorem command_patch_then_guard
  (moduleContent name relativeImportPath updated : str) :
  has_dollar (classify name) = false ->
  Command.patchModuleContent moduleContent name relativeImportPath
    = Some updated ->
  Command.patchModuleContent updated name relativeImportPath = None.
Proof.
  intros Hname Hpatch. unfold Command.patchModuleContent in *.
  set (handler := classify name ++ "Handler") in *.
  set (importStatement := "import { " ++ classify name ++ "Handler } from '"
                          ++ relativeImportPath ++ "';") in *.
  set (providerEntry := "    " ++ classify name ++ "Handler,") in *.
  destruct (includes moduleContent importStatement
            || includes moduleContent handler); [discriminate|].
  assert (Hu : updated
               = addProviderEntry
                   (addImportStatement moduleContent importStatement)
                   providerEntry name) by congruence.
  rewrite Hu. clear Hu Hpatch.
  assert (Hin : includes (addImportStatement moduleContent importStatement)
                  handler = true).
  { assert (Hpre : includes
                     (addImportStatement moduleContent importStatement)
                     ("import { " ++ handler) = true).
    { unfold importStatement, handler.
      replace ("import { " ++ classify name ++ "Handler } from '"
               ++ relativeImportPath ++ "';")
        with (("import { " ++ classify name ++ "Handler")
              ++ (" } from '" ++ relativeImportPath ++ "';"))
        by (rewrite <- !app_assoc; reflexivity).
      apply addImportStatement_includes_prefix.
      rewrite !has_dollar_app, Hname. reflexivity. }
    apply includes_true in Hpre as (b & a & ->).
    replace (b ++ ("import { " ++ handler) ++ a)
      with ((b ++ "import { ") ++ handler ++ a)
      by (rewrite <- !app_assoc; reflexivity).
    apply includes_app. }
  destruct (addProviderEntry_keeps_or_adds
              (addImportStatement moduleContent importStatement)
              handler providerEntry name Hin) as [Hk | Hk].
  - now rewrite Hk, orb_true_r.
  - apply includes_true in Hk as (b & a & Hk). rewrite Hk.
    assert (Hh : includes (b ++ providerEntry ++ a) handler = true).
    { unfold providerEntry, handler.
      replace (b ++ ("    " ++ classify name ++ "Handler,") ++ a)
        with ((b ++ "    ") ++ (classify name ++ "Handler") ++ ("," ++ a)).
      - apply includes_app.
      - rewrite <- !app_assoc. reflexivity. }
    now rewrite Hh, orb_true_r.
Qed.
End WithStrings.

Lemma command_patch_then_guard_witness :
  @Command.patchModuleContent Devkit.strings
    (@addProviderEntry Devkit.strings
       (addImportStatement Samples.users_module
          "import { CreateUserHandler } from './$$/handlers/create-user.handler';")
       "    CreateUserHandler," "create-user")
    "create-user" "./$$/handlers/create-user.handler"
  = None.
Proof.
  apply (@command_patch_then_guard Devkit.strings Samples.users_module
           "create-user" "./$$/handlers/create-user.handler");
    reflexivity.
Defined.

End AdditiveFacts.

(** * src/utils/module-updater.ts: what the module update does to the tree *)
Module UpdateFacts.
Import JS JSFacts SpecWords PathUtilities OptionNormalizer ContentManipulator
       ProviderFacts ImportFacts PatchFacts MemTreeFacts CommandGuardFacts.

#[local] Existing Instance MemTree.tree.

Lemma endsWith_behind (x f s : str) :
  endsWith f s = true -> endsWith (x ++ f) s = true.
Proof.
  intros Hf. apply endsWith_true in Hf as [r ->].
  rewrite app_assoc. apply endsWith_app.
Qed.

Section WithTree.
Context {T : Type} `{Tree T}.

Lemma findModuleFile_listed (tree : T) (currentPath modulePath : str) :
  ModuleUpdater.findModuleFile tree currentPath = Some modulePath ->
  exists subfiles file,
    getDir_subfiles tree (getParentPath currentPath 1) = Ok subfiles /\
    In file subfiles /\
    endsWith file ".module.ts" = true /\
    modulePath = getParentPath currentPath 1 ++ file.
Proof.
  unfold ModuleUpdater.findModuleFile.
  destruct (getDir_subfiles tree (getParentPath currentPath 1))
    as [subfiles|msg]; [|discriminate].
  destruct (filter (fun file => endsWith file ".module.ts") subfiles)
    as [|first rest] eqn:Hf; [discriminate|].
  cbn [map]. intros [= <-].
  assert (Hin : In first (first :: rest)) by now left.
  rewrite <- Hf in Hin. apply filter_In in Hin as [Hin Hs].
  now exists subfiles, first.
Qed.

(** X9.  A path [findModuleFile] returns is the text of the parent
    directory followed by a name of that directory's listing, and it ends
    in [.module.ts]. *)
Theorem findModuleFile_found (tree : T) (currentPath modulePath : str) :
  ModuleUpdater.findModuleFile tree currentPath = Some modulePath ->
  exists subfiles file,
    getDir_subfiles tree (getParentPath currentPath 1) = Ok subfiles /\
    In file subfiles /\
    modulePath = getParentPath currentPath 1 ++ file /\
    endsWith modulePath ".module.ts" = true.
Proof.
  intros Hfind.
  destruct (findModuleFile_listed tree currentPath modulePath Hfind)
    as (subfiles & file & Hdir & Hin & Hs & ->).
  exists subfiles, file. repeat split; auto. now apply endsWith_behind.
Qed.
End WithTree.

Lemma findModuleFile_found_witness :
  exists subfiles file,
    getDir_subfiles
      [("src/app.module.ts" : str, Samples.users_module);
       ("src/main.ts" : str, "x" : str)]
      (getParentPath "src/users/" 1) = Ok subfiles /\
    In file subfiles /\
    ("src/app.module.ts" : str) = getParentPath "src/users/" 1 ++ file /\
    endsWith "src/app.module.ts" ".module.ts" = true.
Proof.
  apply (@findModuleFile_found MemTree.t MemTree.tree
           [("src/app.module.ts" : str, Samples.users_module);
            ("src/main.ts" : str, "x" : str)] "src/users/").
  reflexivity.
Defined.

(** The in-memory tree under [overwrite]. *)
Lemma overwrite_subfiles (tree tree' : MemTree.t) (path content dir : str) :
  MemTree.overwrite tree path content = Ok tree' ->
  MemTree.subfiles tree' dir = MemTree.subfiles tree dir.
Proof.
  unfold MemTree.overwrite. destruct (MemTree.exists_ tree path); [|discriminate].
  intros [= <-]. induction tree as [|f tree IH]; [reflexivity|].
  cbn [map MemTree.subfiles]. rewrite IH.
  destruct (str_eqb (fst f) path) eqn:E; [|reflexivity].
  apply str_eqb_eq in E. unfold MemTree.entry_in. cbn [fst]. now rewrite E.
Qed.

Lemma overwrite_lookup_same (tree tree' : MemTree.t) (path content : str) :
  MemTree.overwrite tree path content = Ok tree' ->
  MemTree.lookup tree' path = Some content.
Proof.
  unfold MemTree.overwrite, MemTree.exists_, MemTree.lookup.
  induction tree as [|f tree IH] in tree' |- *; [discriminate|].
  cbn [existsb map find].
  destruct (str_eqb (fst f) path) eqn:E; cbn [orb].
  - intros [= <-]. cbn [find fst]. now rewrite str_eqb_refl.
  - destruct (existsb (fun f0 => str_eqb (fst f0) path) tree) eqn:Hex;
      [|discriminate].
    intros [= <-]. cbn [find]. rewrite E. now apply (IH _ eq_refl).
Qed.

Lemma thrown_behind {A : Type} (head msg message : str) :
  @Throw A (head ++ msg) = Throw message -> startsWith message head = true.
Proof. intros [= <-]. apply startsWith_app. Qed.

Section WithStrings.
Context `{Strings}.

(** What the patch step of [module-updater.ts] has written passes the
    guard. *)
Lemma module_patch_then_guard
  (modulePath moduleContent name relativeImportPath updated : str) :
  has_dollar (classify name) = false ->
  has_dollar relativeImportPath = false ->
  ModuleUpdater.patchModuleContent modulePath moduleContent name
    relativeImportPath = Ok (Some updated) ->
  updated <> [] /\
  ModuleUpdater.patchModuleContent modulePath updated name relativeImportPath
  = Ok None.
Proof.
  intros Hname Hpath Hpatch. unfold ModuleUpdater.patchModuleContent in *.
  set (importStatement := "import { " ++ classify name ++ "Handler } from '"
                          ++ relativeImportPath ++ "';") in *.
  set (providerEntry := "    " ++ classify name ++ "Handler,") in *.
  destruct (includes moduleContent importStatement
            || includes moduleContent providerEntry); [discriminate|].
  destruct (negb (test ModuleUpdater.providersTest
                    (addImportStatement moduleContent importStatement)));
    [discriminate|].
  assert (Hu : updated
               = addProviderEntry
                   (addImportStatement moduleContent importStatement)
                   providerEntry name) by congruence.
  rewrite Hu. clear Hu Hpatch.
  assert (Hplain : has_dollar importStatement = false).
  { unfold importStatement. rewrite !has_dollar_app, Hname, Hpath.
    reflexivity. }
  assert (Hguard :
            includes (addProviderEntry
                        (addImportStatement moduleContent importStatement)
                        providerEntry name) importStatement
            || includes (addProviderEntry
                           (addImportStatement moduleContent importStatement)
                           providerEntry name) providerEntry = true).
  { destruct (addProviderEntry_keeps_or_adds
                (addImportStatement moduleContent importStatement)
                importStatement providerEntry name
                (addImportStatement_includes _ _ Hplain)) as [-> | ->];
      [reflexivity|now rewrite orb_true_r]. }
  split; [|now rewrite Hguard].
  intros Hnil. rewrite Hnil in Hguard.
  apply orb_true_iff in Hguard as [Hg | Hg]; apply includes_nil in Hg;
    discriminate Hg.
Qed.

End WithStrings.

Section WithTree.
Context {T : Type} `{Tree T} `{Strings}.

(** X10.  For every tree, the module update of [module-updater.ts] leaves
    the tree as it was or writes once: it overwrites the module file it
    found with the patched content of what it read there, and then returns
    normally.  When it throws, the tree is as it was and the message
    starts with [Failed to update module file: ]. *)
Theorem module_update_touches_one_file
  (tree : T) (name normalizedPath : str) (flat : bool) :
  let run := ModuleUpdater.updateModuleFile name normalizedPath flat tree in
  (fst run = tree \/
   exists modulePath moduleContent updated,
     ModuleUpdater.findModuleFile tree normalizedPath = Some modulePath /\
     read tree modulePath = Ok (Some moduleContent) /\
     ModuleUpdater.patchModuleContent modulePath moduleContent name
       (calculateRelativeImportPath modulePath normalizedPath name flat)
     = Ok (Some updated) /\
     overwrite tree modulePath updated = Ok (fst run) /\
     snd run = Ok tt) /\
  (forall message,
     snd run = Throw message ->
     fst run = tree /\
     startsWith message "Failed to update module file: " = true).
Proof.
  cbv zeta. unfold ModuleUpdater.updateModuleFile.
  destruct (ModuleUpdater.findModuleFile tree normalizedPath)
    as [[|c modulePath]|] eqn:Hfind; cbn [truthy_str];
    try (split; [now left|discriminate]).
  unfold rethrow, bind, tree_read.
  destruct (read tree (c :: modulePath)) as [[[|d content]|]|msg] eqn:Hread;
    cbn [truthy_str throw fst snd];
    try (split; [now left|];
         intros message Hm; split;
         [reflexivity|exact (thrown_behind _ _ _ Hm)]).
  destruct (ModuleUpdater.patchModuleContent (c :: modulePath) (d :: content)
              name
              (calculateRelativeImportPath
                 (c :: modulePath) normalizedPath name flat))
    as [[updated|]|msg] eqn:Hpatch; cbn [throw ret fst snd];
    try (split; [now left|discriminate]);
    try (split; [now left|];
         intros message Hm; split;
         [reflexivity|exact (thrown_behind _ _ _ Hm)]).
  unfold tree_overwrite.
  destruct (overwrite tree (c :: modulePath) updated) as [tree'|msg] eqn:Hw;
    cbn [fst snd].
  - split; [|discriminate]. right.
    exists (c :: modulePath), (d :: content), updated. now repeat split.
  - split; [now left|].
    intros message Hm; split;
         [reflexivity|exact (thrown_behind _ _ _ Hm)].
Qed.

(** X11.  The module update run a second time on the tree the first run
    left changes nothing and returns normally.  This holds for every tree
    on which the overwrite of the first run, if there was one, kept the
    listing of the directory searched and is read back as written, as long
    as neither the classified name nor the import path holds a dollar. *)
Theorem module_update_twice
  (tree after : T) (name normalizedPath : str) (flat : bool) :
  (forall path content,
     overwrite tree path content = Ok after ->
     getDir_subfiles after (getParentPath normalizedPath 1)
     = getDir_subfiles tree (getParentPath normalizedPath 1)) ->
  (forall path content,
     overwrite tree path content = Ok after ->
     read after path = Ok (Some content)) ->
  has_dollar (classify name) = false ->
  (forall modulePath,
     ModuleUpdater.findModuleFile tree normalizedPath = Some modulePath ->
     has_dollar
       (calculateRelativeImportPath modulePath normalizedPath name flat)
     = false) ->
  ModuleUpdater.updateModuleFile name normalizedPath flat tree
    = (after, Ok tt) ->
  ModuleUpdater.updateModuleFile name normalizedPath flat after
    = (after, Ok tt).
Proof.
  intros Hlist Hback Hname Hpath Hrun.
  unfold ModuleUpdater.updateModuleFile in Hrun.
  destruct (ModuleUpdater.findModuleFile tree normalizedPath)
    as [[|c mp]|] eqn:Hmp; cbn [truthy_str] in Hrun.
  1, 3: injection Hrun as <-; unfold ModuleUpdater.updateModuleFile;
        now rewrite Hmp.
  specialize (Hpath _ eq_refl).
  unfold rethrow, bind, tree_read in Hrun.
  destruct (read tree (c :: mp)) as [[[|d content]|]|msg] eqn:Hread;
    cbn [truthy_str throw] in Hrun; try discriminate Hrun.
  destruct (ModuleUpdater.patchModuleContent (c :: mp) (d :: content) name
              (calculateRelativeImportPath (c :: mp) normalizedPath name flat))
    as [[updated|]|msg] eqn:Hpatch; cbn [throw ret] in Hrun;
    try discriminate Hrun.
  - unfold tree_overwrite in Hrun.
    destruct (overwrite tree (c :: mp) updated) as [tree'|msg] eqn:Hw;
      [|discriminate Hrun].
    injection Hrun as ->.
    assert (Hfind : ModuleUpdater.findModuleFile after normalizedPath
                    = Some (c :: mp)).
    { etransitivity; [|exact Hmp]. unfold ModuleUpdater.findModuleFile.
      now rewrite (Hlist _ _ Hw). }
    unfold ModuleUpdater.updateModuleFile. rewrite Hfind. cbn [truthy_str].
    unfold rethrow, bind, tree_read. rewrite (Hback _ _ Hw).
    destruct (module_patch_then_guard _ _ _ _ _ Hname Hpath Hpatch)
      as [Hne Hguard].
    destruct updated as [|u updated]; [contradiction|].
    cbn [truthy_str]. now rewrite Hguard.
  - injection Hrun as <-.
    unfold ModuleUpdater.updateModuleFile. rewrite Hmp. cbn [truthy_str].
    unfold rethrow, bind, tree_read. rewrite Hread. cbn [truthy_str].
    now rewrite Hpatch.
Qed.
End WithTree.

Lemma module_update_twice_witness :
  @ModuleUpdater.updateModuleFile MemTree.t MemTree.tree Devkit.strings
    "create-user" "src/users/" false
    (fst (@ModuleUpdater.updateModuleFile MemTree.t MemTree.tree Devkit.strings
            "create-user" "src/users/" false
            [("src/users.module.ts" : str, Samples.users_module)]))
  = (fst (@ModuleUpdater.updateModuleFile MemTree.t MemTree.tree
            Devkit.strings "create-user" "src/users/" false
            [("src/users.module.ts" : str, Samples.users_module)]),
     Ok tt).
Proof.
  apply (@module_update_twice MemTree.t MemTree.tree Devkit.strings
           [("src/users.module.ts" : str, Samples.users_module)]).
  - intros path content Hw.
    exact (f_equal Ok (overwrite_subfiles _ _ _ _ _ Hw)).
  - intros path content Hw.
    exact (f_equal Ok (overwrite_lookup_same _ _ _ _ Hw)).
  - reflexivity.
  - intros modulePath Hm. vm_compute in Hm. injection Hm as <-. reflexivity.
  - reflexivity.
Defined.

End UpdateFacts.

(** * src/command/command.ts and src/query/query.ts: the files written *)
Module GeneratorFacts.
Import JS JSFacts SpecWords OptionNormalizer MemTreeFacts CommandFacts
       UpdateFacts.

Section WithTree.
Context {T : Type} `{Tree T} `{Strings}.

(** The module update of the generators leaves the tree as it was or
    overwrites the module file it found, and then returns normally. *)
Lemma generator_update_cases
  (tree : T) (name normalizedPath : str) (flat : bool) :
  let run := Command.updateModuleFile name normalizedPath flat tree in
  fst run = tree \/
  exists modulePath content,
    ModuleUpdater.findModuleFile tree normalizedPath = Some modulePath /\
    endsWith modulePath ".module.ts" = true /\
    overwrite tree modulePath content = Ok (fst run) /\
    snd run = Ok tt.
Proof.
  cbv zeta. unfold Command.updateModuleFile, Command.findModuleFile.
  destruct (ModuleUpdater.findModuleFile tree normalizedPath)
    as [[|c modulePath]|] eqn:Hfind; cbn [truthy_str]; try (now left).
  unfold rethrow, bind, tree_read.
  destruct (read tree (c :: modulePath)) as [[[|d content]|]|msg];
    cbn [truthy_str]; try (now left).
  destruct (Command.patchModuleContent (d :: content) name
              (PathUtilities.calculateRelativeImportPath
                 (c :: modulePath) normalizedPath name flat))
    as [updated|]; [|now left].
  unfold tree_overwrite.
  destruct (overwrite tree (c :: modulePath) updated) as [tree'|msg] eqn:Hw;
    [|now left].
  right. exists (c :: modulePath), updated. cbn [fst snd].
  split; [reflexivity|]. split; [|now split].
  apply findModuleFile_listed in Hfind as (_ & file & _ & _ & Hs & Hfind).
  rewrite Hfind. now apply endsWith_behind.
Qed.

(** Two creations that return, followed by the module update unless it is
    skipped, inside the generator's [try]. *)
Lemma two_files_then_update
  (tree t1 t2 : T) (p1 c1 p2 c2 name normalizedPath : str)
  (flat skipImport : bool) (wrap : str -> str) :
  create tree p1 c1 = Ok t1 ->
  create t1 p2 c2 = Ok t2 ->
  let run :=
    rethrow wrap
      ((tree_create p1 c1 ;; tree_create p2 c2) ;;
       if negb skipImport
       then Command.updateModuleFile name normalizedPath flat
       else ret tt) tree in
  (fst run = t2 \/
   exists modulePath content,
     ModuleUpdater.findModuleFile t2 normalizedPath = Some modulePath /\
     endsWith modulePath ".module.ts" = true /\
     overwrite t2 modulePath content = Ok (fst run) /\
     snd run = Ok tt) /\
  (forall message, snd run = Throw message -> fst run = t2) /\
  (skipImport = true -> run = (t2, Ok tt)).
Proof.
  intros Hc1 Hc2. cbv zeta.
  assert (Hrun :
            rethrow wrap
              ((tree_create p1 c1 ;; tree_create p2 c2) ;;
               if negb skipImport
               then Command.updateModuleFile name normalizedPath flat
               else ret tt) tree
            = rethrow wrap
                (if negb skipImport
                 then Command.updateModuleFile name normalizedPath flat
                 else ret tt) t2).
  { unfold rethrow, bind, tree_create. now rewrite Hc1, Hc2. }
  rewrite Hrun. clear Hrun.
  destruct skipImport; cbn [negb].
  - split; [now left|]. split; [reflexivity|reflexivity].
  - assert (Hfst : fst (rethrow wrap
                          (Command.updateModuleFile name normalizedPath flat)
                          t2)
                   = fst (Command.updateModuleFile name normalizedPath flat t2)).
    { unfold rethrow.
      now destruct (Command.updateModuleFile name normalizedPath flat t2)
        as [t' [a|msg]]. }
    assert (Hsnd : snd (Command.updateModuleFile name normalizedPath flat t2)
                   = Ok tt ->
                   snd (rethrow wrap
                          (Command.updateModuleFile name normalizedPath flat)
                          t2) = Ok tt).
    { unfold rethrow.
      destruct (Command.updateModuleFile name normalizedPath flat t2)
        as [t' [a|msg]]; cbn [snd]; [auto|discriminate]. }
    rewrite Hfst.
    destruct (generator_update_cases t2 name normalizedPath flat)
      as [Hsame | (mp & content & Hmp & Hs & Hw & Hok)].
    + split; [now left|]. split; [auto|discriminate].
    + split; [|split; [|discriminate]].
      * right. exists mp, content. repeat split; auto.
      * intros message Hm. rewrite (Hsnd Hok) in Hm. discriminate Hm.
Qed.

(** The command generator once the name is there: the two creations and
    the module update inside its [try]. *)
Lemma command_with_name (options : GenerateOptions) (tree : T) :
  let o := normalizeOptions options in
  opt_name options <> [] ->
  Command.command options tree
  = rethrow
      (fun message => "Failed to generate command: " ++ error_text message)
      ((tree_create
          ((if norm_flat o then normalizedPath o
            else normalizedPath o ++ "impl/")
           ++ norm_name o ++ ".command.ts")
          (Template.processTemplate Command.TEMPLATES_COMMAND (norm_name o)) ;;
        tree_create
          ((if norm_flat o then normalizedPath o
            else normalizedPath o ++ "handlers/")
           ++ norm_name o ++ ".handler.ts")
          (Template.processTemplate
             (replace_str Command.TEMPLATES_HANDLER "<%= importPath %>"
                (if norm_flat o then "./" ++ norm_name o ++ ".command"
                 else "../impl/" ++ norm_name o ++ ".command"))
             (norm_name o))) ;;
       if negb (norm_skipImport o)
       then Command.updateModuleFile (norm_name o)
              (normalizedPath o) (norm_flat o)
       else ret tt) tree.
Proof.
  cbv zeta. intros Hname. unfold Command.command.
  destruct (opt_name options); [contradiction|]. reflexivity.
Qed.

(** The query generator once the name is there: the two creations and
    the module update inside its [try]. *)
Lemma query_with_name (options : GenerateOptions) (tree : T) :
  let o := normalizeOptions options in
  opt_name options <> [] ->
  Query.query options tree
  = rethrow
      (fun message => "Failed to generate query: " ++ error_text message)
      ((tree_create
          ((if norm_flat o then normalizedPath o
            else normalizedPath o ++ "impl/")
           ++ norm_name o ++ ".query.ts")
          (Template.processTemplate Query.TEMPLATES_QUERY (norm_name o)) ;;
        tree_create
          ((if norm_flat o then normalizedPath o
            else normalizedPath o ++ "handlers/")
           ++ norm_name o ++ ".handler.ts")
          (Template.processTemplate
             (replace_str Query.TEMPLATES_HANDLER "<%= importPath %>"
                (if norm_flat o then "./" ++ norm_name o ++ ".query"
                 else "../impl/" ++ norm_name o ++ ".query"))
             (norm_name o))) ;;
       if negb (norm_skipImport o)
       then Command.updateModuleFile (norm_name o)
              (normalizedPath o) (norm_flat o)
       else ret tt) tree.
Proof.
  cbv zeta. intros Hname. unfold Query.query.
  destruct (opt_name options); [contradiction|]. reflexivity.
Qed.

(** X12.  For options with a name and for every tree: when the creation
    of the command file and then the creation of the handler file, each at
    its path and with its rendered content, return, the tree the command
    generator leaves is the tree after these two creations, or that tree
    with one file overwritten, the module file found from the target
    directory, and then the run has returned normally.  When the run
    throws, the tree is the one after the two creations: the two files
    stay.  With [skipImport] the run returns normally with the two
    creations and nothing else. *)
Theorem command_adds_two_files
  (options : GenerateOptions) (tree t1 t2 : T) :
  let o := normalizeOptions options in
  let commandFile : str :=
    (if norm_flat o then normalizedPath o else normalizedPath o ++ "impl/")
    ++ norm_name o ++ ".command.ts" in
  let handlerFile : str :=
    (if norm_flat o then normalizedPath o else normalizedPath o ++ "handlers/")
    ++ norm_name o ++ ".handler.ts" in
  let importPath : str :=
    if norm_flat o then "./" ++ norm_name o ++ ".command"
    else "../impl/" ++ norm_name o ++ ".command" in
  let run := Command.command options tree in
  opt_name options <> [] ->
  create tree commandFile
    (Template.processTemplate Command.TEMPLATES_COMMAND (norm_name o))
  = Ok t1 ->
  create t1 handlerFile
    (Template.processTemplate
       (replace_str Command.TEMPLATES_HANDLER "<%= importPath %>" importPath)
       (norm_name o))
  = Ok t2 ->
  (fst run = t2 \/
   exists modulePath content,
     ModuleUpdater.findModuleFile t2 (normalizedPath o) = Some modulePath /\
     endsWith modulePath ".module.ts" = true /\
     overwrite t2 modulePath content = Ok (fst run) /\
     snd run = Ok tt) /\
  (forall message, snd run = Throw message -> fst run = t2) /\
  (norm_skipImport o = true -> run = (t2, Ok tt)).
Proof.
  cbv zeta. intros Hname Hc1 Hc2.
  rewrite (command_with_name options tree Hname).
  exact (two_files_then_update tree t1 t2 _ _ _ _ _ _ _ _ _ Hc1 Hc2).
Qed.

(** X13.  The same for the query generator, with [.query.ts] for the
    query file. *)
Theorem query_adds_two_files
  (options : GenerateOptions) (tree t1 t2 : T) :
  let o := normalizeOptions options in
  let queryFile : str :=
    (if norm_flat o then normalizedPath o else normalizedPath o ++ "impl/")
    ++ norm_name o ++ ".query.ts" in
  let handlerFile : str :=
    (if norm_flat o then normalizedPath o else normalizedPath o ++ "handlers/")
    ++ norm_name o ++ ".handler.ts" in
  let importPath : str :=
    if norm_flat o then "./" ++ norm_name o ++ ".query"
    else "../impl/" ++ norm_name o ++ ".query" in
  let run := Query.query options tree in
  opt_name options <> [] ->
  create tree queryFile
    (Template.processTemplate Query.TEMPLATES_QUERY (norm_name o))
  = Ok t1 ->
  create t1 handlerFile
    (Template.processTemplate
       (replace_str Query.TEMPLATES_HANDLER "<%= importPath %>" importPath)
       (norm_name o))
  = Ok t2 ->
  (fst run = t2 \/
   exists modulePath content,
     ModuleUpdater.findModuleFile t2 (normalizedPath o) = Some modulePath /\
     endsWith modulePath ".module.ts" = true /\
     overwrite t2 modulePath content = Ok (fst run) /\
     snd run = Ok tt) /\
  (forall message, snd run = Throw message -> fst run = t2) /\
  (norm_skipImport o = true -> run = (t2, Ok tt)).
Proof.
  cbv zeta. intros Hname Hc1 Hc2.
  rewrite (query_with_name options tree Hname).
  exact (two_files_then_update tree t1 t2 _ _ _ _ _ _ _ _ _ Hc1 Hc2).
Qed.

(** X14.  Where the command generator stops, on every tree.  Without a
    name it throws before anything is written.  When the creation of the
    command file throws, it throws with that message wrapped and the tree
    is as it was.  When the creation of the handler file throws, the
    command file has been created by then and stays: the tree is the one
    after the first creation. *)
Theorem command_stops (options : GenerateOptions) (tree : T) :
  let o := normalizeOptions options in
  let commandFile : str :=
    (if norm_flat o then normalizedPath o else normalizedPath o ++ "impl/")
    ++ norm_name o ++ ".command.ts" in
  let handlerFile : str :=
    (if norm_flat o then normalizedPath o else normalizedPath o ++ "handlers/")
    ++ norm_name o ++ ".handler.ts" in
  let commandContent :=
    Template.processTemplate Command.TEMPLATES_COMMAND (norm_name o) in
  let handlerContent :=
    Template.processTemplate
      (replace_str Command.TEMPLATES_HANDLER "<%= importPath %>"
         (if norm_flat o then "./" ++ norm_name o ++ ".command"
          else "../impl/" ++ norm_name o ++ ".command"))
      (norm_name o) in
  (opt_name options = [] ->
   Command.command options tree
   = (tree,
      Throw "Failed to generate command: Error: Command name is required"))
  /\
  (forall message,
     opt_name options <> [] ->
     create tree commandFile commandContent = Throw message ->
     Command.command options tree
     = (tree, Throw ("Failed to generate command: Error: " ++ message))) /\
  (forall t1 message,
     opt_name options <> [] ->
     create tree commandFile commandContent = Ok t1 ->
     create t1 handlerFile handlerContent = Throw message ->
     Command.command options tree
     = (t1, Throw ("Failed to generate command: Error: " ++ message))).
Proof.
  cbv zeta. split; [|split].
  - intros Hname. unfold Command.command. rewrite Hname. reflexivity.
  - intros message Hname Hc1. rewrite (command_with_name options tree Hname).
    unfold rethrow, bind. unfold tree_create at 1. now rewrite Hc1.
  - intros t1 message Hname Hc1 Hc2.
    rewrite (command_with_name options tree Hname).
    unfold rethrow, bind, tree_create. now rewrite Hc1, Hc2.
Qed.
End WithTree.


Lemma command_adds_two_files_witness :
  fst (@Command.command MemTree.t MemTree.tree Devkit.strings
         Samples.create_user_in_users Samples.users_tree)
  = (Samples.users_tree
     ++ [("src/users/commands/impl/create-user.command.ts" : str,
          @Template.processTemplate Devkit.strings Command.TEMPLATES_COMMAND
            "create-user")])
    ++ [("src/users/commands/handlers/create-user.handler.ts" : str,
         @Template.processTemplate Devkit.strings
           (replace_str Command.TEMPLATES_HANDLER "<%= importPath %>"
              "../impl/create-user.command") "create-user")]
  \/
  exists modulePath content,
    @ModuleUpdater.findModuleFile MemTree.t MemTree.tree
      ((Samples.users_tree
        ++ [("src/users/commands/impl/create-user.command.ts" : str,
             @Template.processTemplate Devkit.strings
               Command.TEMPLATES_COMMAND "create-user")])
       ++ [("src/users/commands/handlers/create-user.handler.ts" : str,
            @Template.processTemplate Devkit.strings
              (replace_str Command.TEMPLATES_HANDLER "<%= importPath %>"
                 "../impl/create-user.command") "create-user")])
      "src/users/commands/" = Some modulePath /\
    endsWith modulePath ".module.ts" = true /\
    MemTree.overwrite
      ((Samples.users_tree
        ++ [("src/users/commands/impl/create-user.command.ts" : str,
             @Template.processTemplate Devkit.strings
               Command.TEMPLATES_COMMAND "create-user")])
       ++ [("src/users/commands/handlers/create-user.handler.ts" : str,
            @Template.processTemplate Devkit.strings
              (replace_str Command.TEMPLATES_HANDLER "<%= importPath %>"
                 "../impl/create-user.command") "create-user")])
      modulePath content
    = Ok (fst (@Command.command MemTree.t MemTree.tree Devkit.strings
                 Samples.create_user_in_users Samples.users_tree)) /\
    snd (@Command.command MemTree.t MemTree.tree Devkit.strings
           Samples.create_user_in_users Samples.users_tree) = Ok tt.
Proof.
  apply (proj1 (@command_adds_two_files MemTree.t MemTree.tree Devkit.strings
                  Samples.create_user_in_users Samples.users_tree
                  (Samples.users_tree
                   ++ [("src/users/commands/impl/create-user.command.ts" : str,
                        @Template.processTemplate Devkit.strings
                          Command.TEMPLATES_COMMAND "create-user")])
                  _ ltac:(discriminate) eq_refl eq_refl)).
Defined.

Lemma query_adds_two_files_witness :
  @Query.query MemTree.t MemTree.tree Devkit.strings
    {| opt_name := "get user"; opt_path := None;
       opt_skipImport := Some true; opt_flat := Some true |} []
  = ([("src/get-user.query.ts" : str,
       @Template.processTemplate Devkit.strings Query.TEMPLATES_QUERY
         "get-user");
      ("src/get-user.handler.ts" : str,
       @Template.processTemplate Devkit.strings
         (replace_str Query.TEMPLATES_HANDLER "<%= importPath %>"
            "./get-user.query") "get-user")],
     Ok tt).
Proof.
  apply (proj2 (proj2 (@query_adds_two_files MemTree.t MemTree.tree
                         Devkit.strings
                         {| opt_name := "get user"; opt_path := None;
                            opt_skipImport := Some true;
                            opt_flat := Some true |}
                         []
                         [("src/get-user.query.ts" : str,
                           @Template.processTemplate Devkit.strings
                             Query.TEMPLATES_QUERY "get-user")]
                         _ ltac:(discriminate) eq_refl eq_refl))).
  reflexivity.
Defined.

Lemma command_stops_witness :
  @Command.command MemTree.t MemTree.tree Devkit.strings
    {| opt_name := "get user"; opt_path := None;
       opt_skipImport := None; opt_flat := None |}
    [("src/handlers/get-user.handler.ts" : str, "x" : str)]
  = ([("src/handlers/get-user.handler.ts" : str, "x" : str);
      ("src/impl/get-user.command.ts" : str,
       @Template.processTemplate Devkit.strings Command.TEMPLATES_COMMAND
         "get-user")],
     Throw ("Failed to generate command: Error: Path "
            ++ MemTree.quoted "src/handlers/get-user.handler.ts"
            ++ " already exist.")).
Proof.
  apply (proj2 (proj2 (@command_stops MemTree.t MemTree.tree Devkit.strings
                         {| opt_name := "get user"; opt_path := None;
                            opt_skipImport := None; opt_flat := None |}
                         [("src/handlers/get-user.handler.ts" : str,
                           "x" : str)])));
    [discriminate|reflexivity|reflexivity].
Defined.

End GeneratorFacts.

(** * Where the module file is looked for, and what the registration
    insertion returns *)
Module SearchPlaceFacts.
Import JS JSFacts SpecWords PathUtilities OptionNormalizer PathFacts
       ParentFacts ContentManipulator ProviderFacts.

Lemma directory_text_under_src (parts : list str) :
  directory_text (("src" : str) :: parts) = "src/" ++ directory_text parts.
Proof.
  destruct parts as [|x parts]; [reflexivity|].
  unfold directory_text.
  change (join "/" (("src" : str) :: x :: parts))
    with ("src" ++ "/" ++ join "/" (x :: parts)).
  now rewrite <- !app_assoc.
Qed.

Section WithStrings.
Context `{Strings}.

Lemma normalizedPath_segments (options : GenerateOptions) :
  segments (normalizedPath (normalizeOptions options))
  = ("src" : str)
    :: segments (match opt_path options with Some p => p | None => [] end).
Proof.
  unfold normalizeOptions. cbn [normalizedPath].
  destruct (opt_path options) as [[|c p]|]; cbn [truthy_str];
    try reflexivity.
  change ("src/" ++ c :: p) with ("src" ++ "/"%char :: (c :: p)).
  destruct (endsWith ("src" ++ "/"%char :: c :: p) "/").
  - now rewrite segments_app_slash.
  - rewrite <- app_assoc. cbn [app].
    rewrite segments_app_slash.
    change (c :: p ++ "/") with ((c :: p) ++ "/"%char :: []).
    rewrite segments_app_slash.
    change (segments []) with (@nil str). now rewrite app_nil_r.
Qed.

(** X15.  Where the generators look for the module file: in the root of
    the tree when the [path] option is missing or has no segment, else in
    [src/] followed by all but the last segment of the option. *)
Theorem module_file_directory (options : GenerateOptions) :
  getParentPath (normalizedPath (normalizeOptions options)) 1
  = match segments (match opt_path options with
                    | Some p => p
                    | None => []
                    end) with
    | [] => empty
    | x :: parts => "src/" ++ directory_text (removelast (x :: parts))
    end.
Proof.
  rewrite getParentPath_one_level, normalizedPath_segments.
  destruct (segments _) as [|x parts]; [reflexivity|].
  change (removelast (("src" : str) :: x :: parts))
    with (("src" : str) :: removelast (x :: parts)).
  apply directory_text_under_src.
Qed.

(** X16.  The registration insertion returns the content as it is, or a
    content that holds the provider entry on a line of its own. *)
Theorem addProviderEntry_unchanged_or_own_line
  (content providerEntry name : str) :
  addProviderEntry content providerEntry name = content \/
  includes (addProviderEntry content providerEntry name)
    (NL ++ providerEntry ++ NL) = true.
Proof.
  destruct (search providersRegex content) as [m|] eqn:Hs.
  - destruct (providers_found content m Hs)
      as (blanks & providers & Hsegs & _ & Hcontent).
    rewrite (addProviderEntry_found content providerEntry name m
               blanks providers Hs Hsegs).
    destruct (includes providers (classify name ++ "Handler")).
    + left. now rewrite <- Hcontent.
    + right. apply (includes_inside (f_before m) _ (f_after m)).
      replace ("providers: [" ++ trim providers
               ++ (if nonempty (trim providers)
                      && negb (endsWith (trim providers) ",")
                   then "," else empty)
               ++ NL ++ providerEntry ++ NL ++ "  ]")
        with (("providers: [" ++ trim providers
               ++ (if nonempty (trim providers)
                      && negb (endsWith (trim providers) ",")
                   then "," else empty))
              ++ (NL ++ providerEntry ++ NL) ++ "  ]")
        by (rewrite <- !app_assoc; reflexivity).
      apply includes_app.
  - left. unfold addProviderEntry, replace_fn. now rewrite Hs.
Qed.
End WithStrings.

End SearchPlaceFacts.
